(** * react-lightbox: the interaction logic of [pkgs/lightbox/src/index.tsx]

    A shallow embedding of the controlling hook [useLightbox] and of the
    composition primitives [Lightbox.Root], [Lightbox.Viewport],
    [Lightbox.Item] and [Lightbox.Pinchable], followed by the properties
    of the specification that concern them.

    Conventions of the embedding.
    - Indices are JavaScript integers, modelled as [Z]; [number | null]
      is [option Z].
    - Pixel quantities and the zoom scale are JavaScript numbers; they
      are modelled as exact rationals [Q] (no NaN, no infinity). Where a
      decision depends on the rounding of a product or a difference, the
      operation is followed by [binary64], the rounding to the nearest
      double.
    - Every event handler is a computation in a small state-and-trace
      monad: it transforms the component state and records, in program
      order, the calls it makes (consumer callbacks, gesture controls and
      React state setters).
    - A handler reads the values its closure captured at the last render.
      The item list it sees is [context.items], the list of the viewer's
      memoized context, which is recomputed only when [isOpen] changes;
      [setIndex] reads [items.current], the list of the last render of
      the hook. The two are separate fields of the state. The context's
      [currentIndex] is [isOpen] at every render, and is read as such.
    - A state setter takes effect before the next handler runs.
    - An optional callback that the consumer left out is the empty
      function, as the hook itself does for [onVisibilityChange]; the
      call site is recorded either way. *)

From Stdlib Require Import ZArith QArith Qabs Qminmax List String Bool Lia Lqa.
Import ListNotations.
Open Scope Z_scope.

(** ** JavaScript values and truthiness *)

(** The items of a lightbox are opaque consumer-supplied values. *)
Inductive JsValue : Type :=
| JsUndefined
| JsNull
| JsBoolean (b : bool)
| JsNumber (n : Z)
| JsString (s : string)
| JsObject (id : nat).

(** [ToBoolean], as applied by [!item] and by [cond ? a : b]. *)
Definition ToBoolean (v : JsValue) : bool :=
  match v with
  | JsUndefined | JsNull => false
  | JsBoolean b => b
  | JsNumber n => negb (n =? 0)
  | JsString s => negb (String.eqb s EmptyString)
  | JsObject _ => true
  end.

(** Truthiness of a [number | null]. *)
Definition truthy (n : option Z) : bool :=
  match n with
  | None => false
  | Some k => negb (k =? 0)
  end.

(** [arr[i]]: [undefined] outside the array. *)
Definition index_array (arr : list JsValue) (i : Z) : JsValue :=
  if i <? 0 then JsUndefined else nth (Z.to_nat i) arr JsUndefined.

(** [arr.length] *)
Definition length_of (arr : list JsValue) : Z := Z.of_nat (List.length arr).

(** Rounding to the nearest double, ties to even: the result of a
    JavaScript arithmetic operation whose exact value is [q], for finite
    results. *)
Definition round_half_even (q : Q) : Z :=
  let n := Qnum q in
  let d := Zpos (Qden q) in
  let f := n / d in
  let r := n mod d in
  match 2 * r ?= d with
  | Lt => f
  | Gt => f + 1
  | Eq => if Z.even f then f else f + 1
  end.

Definition binary64 (q : Q) : Q :=
  if Qeq_bool q 0 then 0%Q
  else
    let a := Qabs q in
    let e0 := Z.log2 (Qnum a) - Z.log2 (Zpos (Qden a)) in
    let e := if Qle_bool (Qpower 2 e0) a then e0 else e0 - 1 in
    let ulp := Qpower 2 (Z.max (e - 52) (-1074)) in
    let m := round_half_even (a / ulp) in
    let r := (inject_Z m * ulp)%Q in
    Qred (if Qle_bool 0 q then r else (- r)%Q).

(** Strict comparisons of JavaScript numbers on [Q]. *)
Definition Qgtb (a b : Q) : bool := negb (Qle_bool a b).
Definition Qltb (a b : Q) : bool := negb (Qle_bool b a).

(** ** Calls recorded by the handlers *)

(** The component's transform state [{ scale, x, y }]. *)
Record Transform : Type := mkTransform { scale : Q; x : Q; y : Q }.

Inductive Call : Type :=
(* consumer callbacks *)
| onLoadNext
| onVisibilityChange (visible : bool)
| onRequestClose
| onZoomChange (zoomed : bool)
| props_onKeyDown
| props_onClick
| dollar_onClose
(* gesture controls, event controls and logging *)
| cancel
| stopPropagation
| preventDefault
| console_log (message : string)
(* React state setters, with the value they store *)
| setOpen_call (viewer : nat) (stored : option Z)
| setOffset_call (viewer : nat) (offset : Q)
| setTransform_call (t : Transform)
| setSwipeOffsetY_call (offset : Q).

Definition is_onLoadNext (c : Call) : bool :=
  match c with onLoadNext => true | _ => false end.

Definition is_onVisibilityChange (b : bool) (c : Call) : bool :=
  match c with onVisibilityChange v => Bool.eqb v b | _ => false end.

Definition is_onRequestClose (c : Call) : bool :=
  match c with onRequestClose => true | _ => false end.

Definition is_setOpen (c : Call) : bool :=
  match c with setOpen_call _ _ => true | _ => false end.

(** Number of recorded calls that satisfy [p]. *)
Definition count (p : Call -> bool) (t : list Call) : nat :=
  List.length (filter p t).

(** ** The handler monad: state passing with a trace of calls *)

Module Handler.

Definition M (S A : Type) : Type := S -> A * S * list Call.

Definition ret {S A} (a : A) : M S A := fun s => (a, s, []).

Definition bind {S A B} (m : M S A) (k : A -> M S B) : M S B :=
  fun s =>
    let '(a, s1, t1) := m s in
    let '(b, s2, t2) := k a s1 in
    (b, s2, t1 ++ t2).

Definition get {S} : M S S := fun s => (s, s, []).
Definition put {S} (s' : S) : M S unit := fun _ => (tt, s', []).
Definition call {S} (c : Call) : M S unit := fun s => (tt, s, [c]).

(** [if (b) { m }] *)
Definition when {S} (b : bool) (m : M S unit) : M S unit :=
  if b then m else ret tt.

(** [for (const x of xs) { body(x) }] *)
Fixpoint for_of {S A} (xs : list A) (body : A -> M S unit) : M S unit :=
  match xs with
  | [] => ret tt
  | x :: rest => bind (body x) (fun _ => for_of rest body)
  end.

(** State after and calls made by a handler. *)
Definition exec {S A} (m : M S A) (s : S) : S := snd (fst (m s)).
Definition trace {S A} (m : M S A) (s : S) : list Call := snd (m s).

End Handler.
Import Handler.

Notation "x <- m ;; k" := (bind m (fun x => k))
  (at level 61, m at next level, right associativity).
Notation "m ;; k" := (bind m (fun _ => k))
  (at level 61, right associativity).

(** ** [useLightbox]: the controlling hook and [LightboxView] *)

(** [SetStateAction<A>]: a value or an updater of the previous value. *)
Inductive SetStateAction (A : Type) : Type :=
| value (a : A)
| updater (f : A -> A).
Arguments value {A} a.
Arguments updater {A} f.

(** How the promise returned by a consumer callback settles, if it does. *)
Inductive Settlement : Type :=
| resolved
| rejected
| pending.

(** Synthetic events: what the handlers read of them. *)
Record SyntheticEvent : Type := mkEvent {
  key : string;
  defaultPrevented : bool;
  target_is_currentTarget : bool
}.

(** The state shared by one [useLightbox] call and the viewers it
    created. A viewer (a mounted [LightboxView]) is named by a number;
    its [setOpen] setter is identified with that name. *)
Record World : Type := mkWorldWith {
  items_current : list JsValue;        (* items.current *)
  setOpens : list nat;                 (* setOpens.current, in insertion order *)
  isOpen : nat -> option Z;            (* the [isOpen] state of each viewer *)
  rootRef_current : nat -> option Z;   (* clientWidth of rootRef.current, if mounted *)
  offsetX : nat -> Q;                  (* the [offsetX] state of each viewport *)
  context_items : nat -> list JsValue; (* [items] of each viewer's memoized context *)
  context_isOpen : nat -> option Z;    (* the [isOpen] that context was computed for *)
  onLoadNext_settles : Settlement      (* how the promise of [onLoadNext()] settles *)
}.

(** A state in which every viewer has just rendered: each context holds
    the current list, and [onLoadNext] returns nothing or a promise that
    resolves. *)
Definition mkWorld (items : list JsValue) (subscribers : list nat)
    (open : nat -> option Z) (root : nat -> option Z) (offset : nat -> Q) : World :=
  mkWorldWith items subscribers open root offset (fun _ => items) open resolved.

Definition update {A} (f : nat -> A) (v : nat) (a : A) : nat -> A :=
  fun u => if Nat.eqb u v then a else f u.

Definition with_isOpen (w : World) (v : nat) (n : option Z) : World :=
  mkWorldWith (items_current w) (setOpens w) (update (isOpen w) v n)
              (rootRef_current w) (offsetX w)
              (context_items w) (context_isOpen w) (onLoadNext_settles w).

Definition with_offsetX (w : World) (v : nat) (q : Q) : World :=
  mkWorldWith (items_current w) (setOpens w) (isOpen w)
              (rootRef_current w) (update (offsetX w) v q)
              (context_items w) (context_isOpen w) (onLoadNext_settles w).

Definition with_items (w : World) (l : list JsValue) : World :=
  mkWorldWith l (setOpens w) (isOpen w) (rootRef_current w) (offsetX w)
              (context_items w) (context_isOpen w) (onLoadNext_settles w).

Definition with_setOpens (w : World) (l : list nat) : World :=
  mkWorldWith (items_current w) l (isOpen w) (rootRef_current w) (offsetX w)
              (context_items w) (context_isOpen w) (onLoadNext_settles w).

Definition with_context (w : World) (v : nat) (l : list JsValue) (n : option Z)
    : World :=
  mkWorldWith (items_current w) (setOpens w) (isOpen w)
              (rootRef_current w) (offsetX w)
              (update (context_items w) v l) (update (context_isOpen w) v n)
              (onLoadNext_settles w).

Definition option_Z_eqb (a b : option Z) : bool :=
  match a, b with
  | None, None => true
  | Some m, Some n => m =? n
  | _, _ => false
  end.

(** A render of the [LightboxView] of viewer [v]: the context is
    recomputed from [items.current] when [isOpen] is not the value it was
    last computed for, and kept otherwise. *)
Definition LightboxView_render (v : nat) : M World unit :=
  fun w =>
    if option_Z_eqb (isOpen w v) (context_isOpen w v) then (tt, w, [])
    else (tt, with_context w v (items_current w) (isOpen w v), []).

(** [await onLoadNext()]: the call, and whether the handler resumes. *)
Definition await_onLoadNext : M World bool :=
  fun w =>
    (match onLoadNext_settles w with resolved => true | _ => false end,
     w, [onLoadNext]).

(** [const [isOpen, setOpen] = useState<number | null>(null)] *)
Definition setOpen (v : nat) (action : SetStateAction (option Z)) : M World unit :=
  fun w =>
    let next := match action with
                | value a => a
                | updater f => f (isOpen w v)
                end in
    (tt, with_isOpen w v next, [setOpen_call v next]).

(** [const [offsetX, setOffsetX] = useState(0)] *)
Definition setOffset (v : nat) (q : Q) : M World unit :=
  fun w => (tt, with_offsetX w v q, [setOffset_call v q]).

(** The mount effect of [LightboxView]: [setOpens.current.add(setOpen)]. *)
Definition LightboxView_mount (v : nat) : M World unit :=
  fun w =>
    let s := setOpens w in
    (tt, with_setOpens w (if existsb (Nat.eqb v) s then s else s ++ [v]), []).

(** Its cleanup: [setOpens.current.delete(setOpen)]. *)
Definition LightboxView_unmount (v : nat) : M World unit :=
  fun w =>
    (tt, with_setOpens w (filter (fun u => negb (Nat.eqb u v)) (setOpens w)), []).

(** [items.current = []] at the start of every render of the hook. *)
Definition useLightbox_render : M World unit :=
  fun w => (tt, with_items w [], []).

(** [setIndex], exposed as [setCurrentIndex]. *)
Definition setIndex (v : nat) (index : SetStateAction (option Z)) : M World unit :=
  w <- get ;;
  setOpen v (updater (fun prev =>
    let next := match index with
                | updater f => f prev
                | value n => n
                end in
    if truthy next
    then match next with
         | Some n => Some (Z.max 0 (Z.min n (length_of (items_current w) - 1)))
         | None => next
         end
    else next)).

(** [handleClose], exposed as [close]. *)
Definition handleClose (v : nat) : M World unit :=
  setOpen v (value None) ;;
  call (onVisibilityChange false).

Definition setCurrentIndex := setIndex.
Definition close := handleClose.

(** [handler?.(e)] for an optional consumer handler, which may call
    [e.preventDefault()]. *)
Definition call_prop {S} (c : Call)
    (handler : option (SyntheticEvent -> SyntheticEvent))
    (e : SyntheticEvent) : M S SyntheticEvent :=
  match handler with
  | Some f => call c ;; ret (f e)
  | None => ret e
  end.

(** The handler returned by [getOnClick(item, onClick)], for the item
    registered at [itemIndex]. The optional consumer handler may mark the
    event as default-prevented. *)
Definition onClick_handler (itemIndex : Z)
    (onClick : option (SyntheticEvent -> SyntheticEvent))
    (e : SyntheticEvent) : M World unit :=
  e <- call_prop props_onClick onClick e ;;
  if defaultPrevented e then ret tt
  else
    w <- get ;;
    for_of (setOpens w) (fun v =>
      setOpen v (value (Some itemIndex)) ;;
      call (onVisibilityChange true)).

(** [getOnClick]: registers the item and returns its click handler. *)
Definition getOnClick (item : JsValue)
    (onClick : option (SyntheticEvent -> SyntheticEvent))
    : M World (SyntheticEvent -> M World unit) :=
  w <- get ;;
  let items := items_current w ++ [item] in
  put (with_items w items) ;;
  let itemIndex := length_of items - 1 in
  ret (onClick_handler itemIndex onClick).

(** The click of an element rendered with [onClick={lb.getOnClick(item)}]:
    registration during render, then the handler on the event. *)
Definition click (item : JsValue)
    (onClick : option (SyntheticEvent -> SyntheticEvent))
    (e : SyntheticEvent) : M World unit :=
  h <- getOnClick item onClick ;;
  h e.

(** ** [Lightbox.Root]: backdrop click and keyboard navigation *)

Definition Root_onClickBackdrop (v : nat) (e : SyntheticEvent) : M World unit :=
  when (target_is_currentTarget e) (close v).

(** [onKeydown] of the root, for the viewer [v] whose context it reads.
    An absent [$onClose] is the empty callback. *)
Definition Root_onKeydown (v : nat)
    (onKeyDown : option (SyntheticEvent -> SyntheticEvent))
    (e : SyntheticEvent) : M World unit :=
  w <- get ;;
  let items := context_items w v in
  let currentIndex := isOpen w v in
  e <- call_prop props_onKeyDown onKeyDown e ;;
  if defaultPrevented e then ret tt
  else
    match currentIndex with
    | None => ret tt
    | Some currentIndex =>
        when (String.eqb (key e) "Escape")
             (call dollar_onClose ;; close v) ;;
        if String.eqb (key e) "ArrowRight" then
          let nextIndex := currentIndex + 1 in
          when (nextIndex >=? length_of items - 1) (call onLoadNext) ;;
          setCurrentIndex v (value (Some (Z.min nextIndex (length_of items - 1))))
        else if String.eqb (key e) "ArrowLeft" then
          let prevIndex := currentIndex - 1 in
          setCurrentIndex v (value (Some (Z.max prevIndex 0)))
        else ret tt
    end.

(** [Lightbox.Close]: the click handler of the close button. *)
Definition Close_onClick (v : nat)
    (onClick : option (SyntheticEvent -> SyntheticEvent))
    (e : SyntheticEvent) : M World unit :=
  e <- call_prop props_onClick onClick e ;;
  if defaultPrevented e then ret tt
  else call stopPropagation ;; close v.

(** ** [Lightbox.Viewport]: windowing *)

Definition visibleIndices (items : list JsValue) (currentIndex : Z) : list Z :=
  filter (fun i => (i >=? 0) && (i <? length_of items))
         [currentIndex - 1; currentIndex; currentIndex + 1].

(** The children of the viewport's section: for each visible index,
    [null] when the item is falsy, else the element that [$renderItem]
    returned, cloned with [key: index]. *)
Definition Viewport_children (items : list JsValue) (currentIndex : Z)
    : list (option Z) :=
  map (fun index =>
         let item := index_array items index in
         if negb (ToBoolean item) then None else Some index)
      (visibleIndices items currentIndex).

(** What the viewport of viewer [v] renders: [None] is [return null]. *)
Definition Viewport (w : World) (v : nat) : option (list (option Z)) :=
  match isOpen w v with
  | None => None
  | Some currentIndex => Some (Viewport_children (context_items w v) currentIndex)
  end.

(** The item slots among rendered children, by their index. *)
Definition mounted_slots (children : list (option Z)) : list Z :=
  flat_map (fun c => match c with Some i => [i] | None => [] end) children.

(** ** [Lightbox.Item]: drag-based navigation *)

(** What the [useDrag] handler reads of the gesture state. *)
Record DragState : Type := mkDrag {
  down : bool;
  mx : Q;     (* movement: [mx] *)
  xDir : Q;   (* direction: [xDir] *)
  ix : Q      (* initial: [ix] *)
}.

(** [width * 0.35], in doubles: the literal and the product are rounded. *)
Definition edgeThreshold (width : Z) : Q :=
  binary64 (inject_Z width * binary64 0.35).

(** [width - edgeThreshold], in doubles. *)
Definition far_edge (width : Z) : Q :=
  binary64 (inject_Z width - edgeThreshold width).

(** The edge test of the handler: true when the drag is to be cancelled.
    It is only made while the pointer is down and the root is mounted. *)
Definition started_off_edge (g : DragState) (root : option Z) : bool :=
  match down g, root with
  | true, Some width =>
      Qgtb (ix g) (edgeThreshold width) && Qltb (ix g) (far_edge width)
  | _, _ => false
  end.

(** The [useDrag] handler of an item slot of viewer [v]. The two early
    returns of the source are the first two branches. The handler is
    [async]: after [await onLoadNext()] it resumes, with the index update
    and the offset reset, only if the promise resolves. *)
Definition Item_onDrag (v : nat) (g : DragState) : M World unit :=
  w <- get ;;
  let items := context_items w v in
  match isOpen w v with
  | None => ret tt
  | Some currentIndex =>
      if started_off_edge g (rootRef_current w v) then call cancel
      else if down g then setOffset v (mx g)
      else
        let threshold := 100%Q in
        if Qgtb (Qabs (mx g)) threshold then
          let nextIndex := currentIndex + (if Qltb (xDir g) 0 then 1 else -1) in
          resumed <- (if nextIndex >=? length_of items - 1
                      then await_onLoadNext else ret true) ;;
          if resumed then
            setCurrentIndex v
              (value (Some (Z.min (Z.max nextIndex 0) (length_of items - 1)))) ;;
            setOffset v 0
          else ret tt
        else setOffset v 0
  end.

(** ** [Lightbox.Pinchable]: pinch-zoom, pan and swipe-to-close *)

Record PinchableState : Type := mkPinchable {
  transform : Transform;   (* [{ scale, x, y }] *)
  swipeOffsetY : Q
}.

Definition Pinchable_initial : PinchableState :=
  mkPinchable (mkTransform 1 0 0) 0.

Definition setTransform (t : Transform) : M PinchableState unit :=
  fun st => (tt, mkPinchable t (swipeOffsetY st), [setTransform_call t]).

Definition setSwipeOffsetY (q : Q) : M PinchableState unit :=
  fun st => (tt, mkPinchable (transform st) q, [setSwipeOffsetY_call q]).

(** What [onDrag] reads of the gesture state. *)
Record PinchDrag : Type := mkPinchDrag {
  ox : Q;              (* offset: [ox, oy] *)
  oy : Q;
  drag_down : bool;    (* down *)
  my : Q;              (* movement: [, my] *)
  pinching : bool
}.

(** Absent [onRequestClose] and [onZoomChange] are the empty callback. *)
Definition Pinchable_onDrag (g : PinchDrag) : M PinchableState unit :=
  st <- get ;;
  let scale := scale (transform st) in
  when (negb (Qeq_bool scale 1)) (call stopPropagation) ;;
  if pinching g then call cancel
  else if Qgtb scale 1 then
    setTransform (mkTransform scale (ox g) (oy g))
  else if drag_down g then
    setSwipeOffsetY (Qmax 0 (my g))
  else
    let threshold := 100%Q in
    when (Qgtb (my g) threshold) (call onRequestClose) ;;
    setSwipeOffsetY 0.

Definition Pinchable_onPinch (s : Q) : M PinchableState unit :=
  call preventDefault ;;
  let newScale := Qmax 1 (Qmin s 4) in
  setTransform (mkTransform newScale 0 0) ;;
  call (onZoomChange (Qgtb newScale 1)).

Definition Pinchable_onWheel (ctrlKey : bool) : M PinchableState unit :=
  when ctrlKey (call preventDefault).

Definition Pinchable_handleClick (e : SyntheticEvent) : M PinchableState unit :=
  st <- get ;;
  if negb (Qeq_bool (scale (transform st)) 1) then ret tt
  else when (target_is_currentTarget e) (call onRequestClose).

Definition Pinchable_handleDoubleClick (e : SyntheticEvent) : M PinchableState unit :=
  call (console_log "hi") ;;
  call stopPropagation ;;
  setTransform (mkTransform 1 0 0) ;;
  call (onZoomChange false).

Definition Pinchable_handleKeyDown (e : SyntheticEvent) : M PinchableState unit :=
  st <- get ;;
  if Qeq_bool (scale (transform st)) 1 then ret tt
  else when (String.eqb (key e) "ArrowLeft" || String.eqb (key e) "ArrowRight")
            (call stopPropagation).

(** The [opacity] of the wrapper's style. *)
Definition Pinchable_opacity (st : PinchableState) : Q :=
  if Qeq_bool (scale (transform st)) 1
  then Qmax 0.5 (1 - swipeOffsetY st / 300)
  else 1.

(** The events the wrapper reacts to. *)
Inductive PinchableEvent : Type :=
| Drag (g : PinchDrag)
| Pinch (s : Q)
| Wheel (ctrlKey : bool)
| Click (e : SyntheticEvent)
| DoubleClick (e : SyntheticEvent)
| KeyDown (e : SyntheticEvent).

Definition Pinchable_handle (ev : PinchableEvent) : M PinchableState unit :=
  match ev with
  | Drag g => Pinchable_onDrag g
  | Pinch s => Pinchable_onPinch s
  | Wheel c => Pinchable_onWheel c
  | Click e => Pinchable_handleClick e
  | DoubleClick e => Pinchable_handleDoubleClick e
  | KeyDown e => Pinchable_handleKeyDown e
  end.

(** A sequence of events, each handled on the state the previous left. *)
Definition Pinchable_run (evs : list PinchableEvent) : M PinchableState unit :=
  for_of evs Pinchable_handle.

(** ** Vocabulary of the statements *)

(** What [setIndex] stores: the requested value, clamped when truthy. *)
Definition clamped (items : list JsValue) (next : option Z) : option Z :=
  match next with
  | Some n => if n =? 0 then Some 0
              else Some (Z.max 0 (Z.min n (length_of items - 1)))
  | None => None
  end.

Definition requested (index : SetStateAction (option Z)) (prev : option Z) : option Z :=
  match index with
  | value n => n
  | updater f => f prev
  end.

(** The broadcast loop of the click handler. *)
Definition broadcast (itemIndex : Z) (subscribers : list nat) : M World unit :=
  for_of subscribers (fun v =>
    setOpen v (value (Some itemIndex)) ;;
    call (onVisibilityChange true)).

(** The event as the consumer's optional handler leaves it. *)
Definition after_prop (handler : option (SyntheticEvent -> SyntheticEvent))
    (e : SyntheticEvent) : SyntheticEvent :=
  match handler with
  | Some f => f e
  | None => e
  end.

(** The record of the call to the consumer's optional handler. *)
Definition prop_call (c : Call)
    (handler : option (SyntheticEvent -> SyntheticEvent)) : list Call :=
  match handler with
  | Some _ => [c]
  | None => []
  end.



(** What a release that navigates to [nextIndex] stores, for a context
    list of length [L] and a current list of length [N]. *)
Definition release_stored (L N nextIndex : Z) : Z :=
  Z.max 0 (Z.min (Z.min (Z.max nextIndex 0) (L - 1)) (N - 1)).

(** The index change of a release: one step, forward for a leftward
    direction and backward otherwise. *)
Definition release_step (g : DragState) : Z :=
  if Qltb (xDir g) 0 then 1 else -1.

(** The bounds of the zoom scale. *)
Definition scale_in_bounds (st : PinchableState) : Prop :=
  (1 <= scale (transform st) <= 4)%Q.

(** A hook with one mounted viewer, closed, before its first render. *)
Definition one_viewer : World :=
  mkWorld [] [0%nat] (fun _ => None) (fun _ => Some 1000) (fun _ => 0%Q).

(** A render that registers three items and keeps the handler of the
    second one. *)
Definition render_three (a b c : JsValue)
    : M World (SyntheticEvent -> M World unit) :=
  useLightbox_render ;;
  _ <- getOnClick a None ;;
  on_b <- getOnClick b None ;;
  _ <- getOnClick c None ;;
  ret on_b.

(** ** The rest of the hook: renders, viewer output, [useLightboxState] *)

(** One [getOnClick(item, onClick)] call of a render. *)
Definition Registration : Type :=
  (JsValue * option (SyntheticEvent -> SyntheticEvent))%type.

Definition ClickHandler : Type := SyntheticEvent -> M World unit.

(** The [getOnClick] calls of one render, in call order, with the
    handlers they return. *)
Fixpoint register (regs : list Registration) : M World (list ClickHandler) :=
  match regs with
  | [] => ret []
  | (item, onClick) :: rest =>
      h <- getOnClick item onClick ;;
      hs <- register rest ;;
      ret (h :: hs)
  end.

(** A render of the component that calls [useLightbox]: the hook resets
    the list, then the body registers its items. *)
Definition render (regs : list Registration) : M World (list ClickHandler) :=
  useLightbox_render ;;
  register regs.

(** The props that [LightboxView] passes to [LightboxComponent]. *)
Record LightboxProps : Type := mkProps {
  props_items : list JsValue;
  props_defaultIndex : option Z;
  props_open : bool
}.

(** What the [LightboxView] of viewer [v] renders: [None] is
    [return null]. [window_defined] is [typeof window !== "undefined"]. *)
Definition LightboxView (window_defined : bool) (w : World) (v : nat)
    : option LightboxProps :=
  match isOpen w v with
  | None => None
  | Some _ =>
      if negb window_defined then None
      else Some (mkProps (items_current w) (isOpen w v)
                         (match isOpen w v with Some _ => true | None => false end))
  end.

(** The value of [useLightboxState()] inside viewer [v]. *)
Record LightboxState : Type := mkState {
  state_items : list JsValue;
  currentItem : JsValue;
  state_currentIndex : option Z
}.

Definition useLightboxState (w : World) (v : nat) : LightboxState :=
  mkState (context_items w v)
          (match isOpen w v with
           | Some i => index_array (context_items w v) i
           | None => JsNull
           end)
          (isOpen w v).

(** What a user or the consumer's code can do between two renders. *)
Inductive UserEvent : Type :=
| KeyPress (v : nat) (onKeyDown : option (SyntheticEvent -> SyntheticEvent))
           (e : SyntheticEvent)
| BackdropClick (v : nat) (e : SyntheticEvent)
| CloseClick (v : nat) (onClick : option (SyntheticEvent -> SyntheticEvent))
             (e : SyntheticEvent)
| ItemDrag (v : nat) (g : DragState)
| ItemClick (k : nat) (e : SyntheticEvent)   (* the element of the k-th registration *)
| CallSetCurrentIndex (v : nat) (index : SetStateAction (option Z))
| CallClose (v : nat).

(** The handler that an event reaches; a click on an element that no
    registration produced reaches none. *)
Definition dispatch (handlers : list ClickHandler) (ev : UserEvent) : M World unit :=
  match ev with
  | KeyPress v onKeyDown e => Root_onKeydown v onKeyDown e
  | BackdropClick v e => Root_onClickBackdrop v e
  | CloseClick v onClick e => Close_onClick v onClick e
  | ItemDrag v g => Item_onDrag v g
  | ItemClick k e =>
      match nth_error handlers k with
      | Some h => h e
      | None => ret tt
      end
  | CallSetCurrentIndex v index => setCurrentIndex v index
  | CallClose v => close v
  end.

(** After an event, the viewers whose state was set render again. *)
Definition rerender : M World unit :=
  w <- get ;;
  for_of (setOpens w) LightboxView_render.

Definition session (handlers : list ClickHandler) (evs : list UserEvent)
    : M World unit :=
  for_of evs (fun ev => dispatch handlers ev ;; rerender).

(** ** [Lightbox.Root]: the scroll lock effect *)

Record Document : Type := mkDocument {
  body_style_overflow : string   (* document.body.style.overflow *)
}.

(** The effect that locks background scrolling; its result is the
    cleanup function, which closes over [original]. *)
Definition Root_scroll_effect (preventScrollWhileOpen : bool)
    (currentIndex : option Z) : M Document (M Document unit) :=
  d <- get ;;
  let original := body_style_overflow d in
  when preventScrollWhileOpen
       (put (mkDocument (match currentIndex with
                         | Some _ => "hidden"
                         | None => ""
                         end))) ;;
  ret (when preventScrollWhileOpen (put (mkDocument original))).

(** The life of the effect over the successive values of its
    dependencies: each run is cleaned up before the next one and at
    unmount. *)
Definition Root_scroll_lifecycle (deps : list (bool * option Z)) : M Document unit :=
  for_of deps (fun dep =>
    cleanup <- Root_scroll_effect (fst dep) (snd dep) ;;
    cleanup).

(** ** [Lightbox.Item]: the style of a slot *)

Record ItemStyle : Type := mkItemStyle {
  left_percent : Z;          (* left: `${$index * 100}%` *)
  translateX_percent : Z;    (* translateX(calc(-${currentIndex * 100}% ... *)
  translateX_px : Q;         (*   ... + ${offset}px)) *)
  transition : string
}.

(** The positioning part of the style of the slot [$index]; [None] is
    [return null]. *)
Definition Item_style (index : Z) (w : World) (v : nat) : option ItemStyle :=
  match isOpen w v with
  | None => None
  | Some currentIndex =>
      Some (mkItemStyle (index * 100) (- (currentIndex * 100)) (offsetX w v)
                        (if Qeq_bool (offsetX w v) 0
                         then "transform 0.3s ease-out" else "none"))
  end.

(** ** Key events from a wrapper nested in the root *)

Definition is_stopPropagation (c : Call) : bool :=
  match c with stopPropagation => true | _ => false end.

(** A key event whose target is inside a [Lightbox.Pinchable] rendered
    inside a [Lightbox.Root]: the wrapper's [onKeyDown] runs first and the
    event bubbles to the root's unless the wrapper stopped it. *)
Definition keydown_in_pinchable (v : nat)
    (onKeyDown : option (SyntheticEvent -> SyntheticEvent))
    (e : SyntheticEvent) : M (World * PinchableState) unit :=
  fun s =>
    let '(_, p', t1) := Pinchable_handleKeyDown e (snd s) in
    if existsb is_stopPropagation t1 then (tt, (fst s, p'), t1)
    else
      let '(_, w', t2) := Root_onKeydown v onKeyDown e (fst s) in
      (tt, (w', p'), t1 ++ t2).

(** ** [useConcatRef] *)

Module ConcatRef.

(** The functions the merged ref handles: a cleanup returned by a
    callback ref, and the wrapper [() => disposer] pushed for it. *)
Inductive Fn : Type :=
| cleanup (id : nat)
| returning (disposer : option nat).

(** A ref given to the hook: absent, a callback ref (with the cleanup it
    returns, if any), or a ref object. *)
Inductive Ref : Type :=
| ref_absent
| ref_callback (id : nat) (returns : option nat)
| ref_object (id : nat).

Record State : Type := mkRefState {
  current : option nat;                 (* the closure's [current] *)
  disposers : list Fn;
  object_current : nat -> option nat;   (* [.current] of each ref object *)
  callback_calls : list (nat * nat);    (* callback ref calls: (ref, element) *)
  cleanup_calls : list nat              (* cleanups that were run *)
}.

Definition initial : State := mkRefState None [] (fun _ => None) [] [].

(** [f?.()] *)
Definition call_fn (f : Fn) (st : State) : State :=
  match f with
  | cleanup id =>
      mkRefState (current st) (disposers st) (object_current st)
              (callback_calls st) (cleanup_calls st ++ [id])
  | returning _ => st
  end.

(** One turn of the loop over [refs] for a non-null [value]. *)
Definition attach (value : nat) (st : State) (ref : Ref) : State :=
  match ref with
  | ref_absent => st
  | ref_callback id returns =>
      let disposer := returns in
      mkRefState (current st) (disposers st ++ [returning disposer])
              (object_current st) (callback_calls st ++ [(id, value)])
              (cleanup_calls st)
  | ref_object id =>
      mkRefState (current st) (disposers st)
              (update (object_current st) id (Some value))
              (callback_calls st) (cleanup_calls st)
  end.

(** [set current(value)] *)
Definition set_current (refs : list Ref) (value : option nat) (st : State) : State :=
  let st := mkRefState value (disposers st) (object_current st)
                    (callback_calls st) (cleanup_calls st) in
  match value with
  | None =>
      let st := fold_left (fun s f => call_fn f s) (disposers st) st in
      mkRefState (current st) [] (object_current st)
              (callback_calls st) (cleanup_calls st)
  | Some el => fold_left (attach el) refs st
  end.

(** [get current()] *)
Definition get_current (st : State) : option nat := current st.

(** Successive assignments to [.current]. *)
Definition assignments (refs : list Ref) (values : list (option nat)) (st : State)
    : State :=
  fold_left (fun s value => set_current refs value s) values st.

(** The callback refs of [refs], in order. *)
Definition callbacks (refs : list Ref) : list nat :=
  flat_map (fun r => match r with ref_callback id _ => [id] | _ => [] end) refs.

(** Disposer lists that hold wrappers only. *)
Definition only_wrappers (st : State) : Prop :=
  forall f, In f (disposers st) -> exists d, f = returning d.

(** Whether [refs] holds the ref object [id]. *)
Definition has_object (refs : list Ref) (id : nat) : bool :=
  existsb (fun r => match r with ref_object j => Nat.eqb j id | _ => false end) refs.

End ConcatRef.

(** ** Vocabulary of the further properties *)

(** The handlers that the registrations [regs] get when the list already
    holds [n] items. *)
Fixpoint handlers_from (n : nat) (regs : list Registration) : list ClickHandler :=
  match regs with
  | [] => []
  | (_, onClick) :: rest =>
      onClick_handler (Z.of_nat n) onClick :: handlers_from (S n) rest
  end.

(** A current index that is [null] or an index of [items]. *)
Definition valid_index (items : list JsValue) (n : option Z) : Prop :=
  match n with
  | None => True
  | Some k => 0 <= k < length_of items
  end.

(** The list is [items] and every viewer's index is valid for it. *)
Definition well_indexed (items : list JsValue) (w : World) : Prop :=
  items_current w = items /\ forall v, valid_index items (isOpen w v).

Definition preserves {A} (items : list JsValue) (m : M World A) : Prop :=
  forall w, well_indexed items w -> well_indexed items (exec m w).

(** Mounting and unmounting viewers, in any order. *)
Inductive Lifecycle : Type :=
| Mount (v : nat)
| Unmount (v : nat).

Definition lifecycle (l : Lifecycle) : M World unit :=
  match l with
  | Mount v => LightboxView_mount v
  | Unmount v => LightboxView_unmount v
  end.

(** The viewers that are mounted after the steps [ls], from none. *)
Fixpoint mounted_after (ls : list Lifecycle) (mounted : nat -> bool) : nat -> bool :=
  match ls with
  | [] => mounted
  | Mount v :: rest => mounted_after rest (update mounted v true)
  | Unmount v :: rest => mounted_after rest (update mounted v false)
  end.

(** The keys the root reacts to. *)
Definition navigation_key (k : string) : bool :=
  String.eqb k "Escape" || String.eqb k "ArrowRight" || String.eqb k "ArrowLeft".


(** The horizontal place of a slot, in percent of the viewport width,
    before the pixel offset. *)
Definition net_percent (st : ItemStyle) : Z :=
  left_percent st + translateX_percent st.

(** A swipe offset that is not negative. *)
Definition swipe_nonneg (st : PinchableState) : Prop := (0 <= swipeOffsetY st)%Q.

(** * Properties *)

(** ** The handler monad *)

Lemma exec_bind {S A B} (m : M S A) (k : A -> M S B) (s : S) :
  exec (bind m k) s = exec (k (fst (fst (m s)))) (exec m s).
Proof.
  unfold exec, bind.
  destruct (m s) as [[a s1] t1]; simpl.
  destruct (k a s1) as [[b s2] t2]; reflexivity.
Qed.

Lemma trace_bind {S A B} (m : M S A) (k : A -> M S B) (s : S) :
  trace (bind m k) s = trace m s ++ trace (k (fst (fst (m s)))) (exec m s).
Proof.
  unfold trace, exec, bind.
  destruct (m s) as [[a s1] t1]; simpl.
  destruct (k a s1) as [[b s2] t2]; reflexivity.
Qed.

Lemma count_app (p : Call -> bool) (t1 t2 : list Call) :
  count p (t1 ++ t2) = (count p t1 + count p t2)%nat.
Proof. unfold count. now rewrite filter_app, length_app. Qed.

Lemma call_prop_run {S} (c : Call)
    (handler : option (SyntheticEvent -> SyntheticEvent))
    (e : SyntheticEvent) (s : S) :
  call_prop c handler e s = (after_prop handler e, s, prop_call c handler).
Proof. destruct handler; reflexivity. Qed.

(** ** The state store: [setCurrentIndex], [close], [getOnClick] *)

Lemma length_of_nonneg (items : list JsValue) : 0 <= length_of items.
Proof. unfold length_of. lia. Qed.

Lemma length_of_pos (items : list JsValue) : items <> [] -> 1 <= length_of items.
Proof. unfold length_of. destruct items; [congruence | simpl; lia]. Qed.

Lemma update_same {A} (f : nat -> A) (v : nat) (a : A) : update f v a v = a.
Proof. unfold update. now rewrite Nat.eqb_refl. Qed.

Lemma update_other {A} (f : nat -> A) (u v : nat) (a : A) :
  u <> v -> update f v a u = f u.
Proof. unfold update. intros H. apply Nat.eqb_neq in H. now rewrite H. Qed.

Lemma setIndex_run (w : World) (v : nat) (index : SetStateAction (option Z)) :
  let stored := clamped (items_current w) (requested index (isOpen w v)) in
  exec (setIndex v index) w = with_isOpen w v stored /\
  trace (setIndex v index) w = [setOpen_call v stored].
Proof.
  unfold setIndex, exec, trace, bind, get, setOpen, clamped, requested; simpl.
  destruct index as [n | f]; simpl.
  - destruct n as [n |]; simpl; [| split; reflexivity].
    destruct (n =? 0) eqn:E; simpl; [| split; reflexivity].
    apply Z.eqb_eq in E; subst n. split; reflexivity.
  - destruct (f (isOpen w v)) as [n |]; simpl; [| split; reflexivity].
    destruct (n =? 0) eqn:E; simpl; [| split; reflexivity].
    apply Z.eqb_eq in E; subst n. split; reflexivity.
Qed.

Lemma setIndex_eq (w : World) (v : nat) (index : SetStateAction (option Z)) :
  setIndex v index w
  = (tt,
     with_isOpen w v (clamped (items_current w) (requested index (isOpen w v))),
     [setOpen_call v (clamped (items_current w) (requested index (isOpen w v)))]).
Proof.
  pose proof (setIndex_run w v index) as [He Ht]. unfold exec, trace in *.
  destruct (setIndex v index w) as [[[] w'] t]. simpl in *. now subst.
Qed.

Lemma setIndex_isOpen (w : World) (v : nat) (index : SetStateAction (option Z)) :
  isOpen (exec (setIndex v index) w) v
  = clamped (items_current w) (requested index (isOpen w v)).
Proof.
  destruct (setIndex_run w v index) as [-> _]. simpl. apply update_same.
Qed.

Lemma handleClose_run (w : World) (v : nat) :
  exec (handleClose v) w = with_isOpen w v None /\
  trace (handleClose v) w = [setOpen_call v None; onVisibilityChange false].
Proof. split; reflexivity. Qed.

(** C1, as stated, fails on an empty item list: [setCurrentIndex(5)] (and
    [setCurrentIndex(0)]) store [0], which is not an index of the list. *)
Lemma setCurrentIndex_empty_list_out_of_range :
  let w := mkWorld [] [0%nat] (fun _ => None) (fun _ => None) (fun _ => 0%Q) in
  isOpen (exec (setCurrentIndex 0 (value (Some 5))) w) 0%nat = Some 0 /\
  isOpen (exec (setCurrentIndex 0 (value (Some 0))) w) 0%nat = Some 0 /\
  ~ (0 <= 0 <= length_of (items_current w) - 1).
Proof.
  simpl. repeat split; try reflexivity. unfold length_of; simpl; lia.
Qed.

(** C1 (amended): for every value or updater input and every non-empty
    item list, the value stored by [setCurrentIndex] is either [null] or
    an integer in [[0, length - 1]]; the item list is left as it was. *)
Theorem setCurrentIndex_in_range
    (w : World) (v : nat) (index : SetStateAction (option Z))
    (Hitems : items_current w <> []) :
  let w' := exec (setCurrentIndex v index) w in
  items_current w' = items_current w /\
  (isOpen w' v = None \/
   exists n, isOpen w' v = Some n /\ 0 <= n <= length_of (items_current w') - 1).
Proof.
  intros w'. subst w'. unfold setCurrentIndex.
  rewrite setIndex_isOpen.
  destruct (setIndex_run w v index) as [-> _]. simpl.
  split; [reflexivity |].
  pose proof (length_of_pos _ Hitems) as Hlen.
  unfold clamped.
  destruct (requested index (isOpen w v)) as [n |]; [right | now left].
  destruct (n =? 0).
  - exists 0. split; [reflexivity | lia].
  - eexists. split; [reflexivity | lia].
Qed.

Lemma setCurrentIndex_in_range_witness :
  let w := mkWorld [JsObject 0; JsObject 1; JsObject 2] [0%nat]
                   (fun _ => Some 1) (fun _ => None) (fun _ => 0%Q) in
  let w' := exec (setCurrentIndex 0 (updater (fun _ => Some 7))) w in
  items_current w <> [] /\
  items_current w' = items_current w /\
  (isOpen w' 0%nat = None \/
   exists n, isOpen w' 0%nat = Some n /\ 0 <= n <= length_of (items_current w') - 1).
Proof.
  split; [simpl; discriminate |].
  apply (setCurrentIndex_in_range
           (mkWorld [JsObject 0; JsObject 1; JsObject 2] [0%nat]
                    (fun _ => Some 1) (fun _ => None) (fun _ => 0%Q))).
  simpl. discriminate.
Defined.

(** C2: [close()] and [setCurrentIndex(null)] both store [null], but only
    [close()] notifies: [setCurrentIndex(null)] makes the one call to the
    state setter and never calls the visibility callback. *)
Theorem setCurrentIndex_null_skips_notification (w : World) (v : nat) :
  isOpen (exec (close v) w) v = None /\
  isOpen (exec (setCurrentIndex v (value None)) w) v = None /\
  exec (setCurrentIndex v (value None)) w = exec (close v) w /\
  trace (close v) w = [setOpen_call v None; onVisibilityChange false] /\
  trace (setCurrentIndex v (value None)) w = [setOpen_call v None] /\
  count (is_onVisibilityChange false) (trace (close v) w) = 1%nat /\
  count (is_onVisibilityChange false)
        (trace (setCurrentIndex v (value None)) w) = 0%nat.
Proof.
  unfold close, setCurrentIndex.
  destruct (setIndex_run w v (value None)) as [He Ht].
  destruct (handleClose_run w v) as [Hc Htc].
  rewrite He, Ht, Hc, Htc. simpl.
  rewrite update_same. repeat split; reflexivity.
Qed.

Lemma broadcast_trace (itemIndex : Z) (subscribers : list nat) (w : World) :
  trace (broadcast itemIndex subscribers) w
  = flat_map (fun v => [setOpen_call v (Some itemIndex); onVisibilityChange true])
             subscribers.
Proof.
  unfold broadcast. revert w.
  induction subscribers as [| v rest IH]; intros w; [reflexivity |].
  cbn [for_of flat_map]. rewrite trace_bind, IH. reflexivity.
Qed.

Lemma broadcast_isOpen (itemIndex : Z) (subscribers : list nat) (w : World) (u : nat) :
  isOpen (exec (broadcast itemIndex subscribers) w) u
  = if existsb (Nat.eqb u) subscribers then Some itemIndex else isOpen w u.
Proof.
  unfold broadcast. revert w.
  induction subscribers as [| v rest IH]; intros w; [reflexivity |].
  cbn [for_of existsb]. rewrite exec_bind, IH.
  destruct (existsb (Nat.eqb u) rest); [now rewrite orb_true_r |].
  rewrite orb_false_r. cbn. unfold update. reflexivity.
Qed.

Lemma broadcast_notifications (itemIndex : Z) (subscribers : list nat) :
  count (is_onVisibilityChange true)
        (flat_map (fun v => [setOpen_call v (Some itemIndex); onVisibilityChange true])
                  subscribers)
  = List.length subscribers.
Proof.
  induction subscribers as [| v rest IH]; [reflexivity |].
  cbn [flat_map]. rewrite count_app, IH. reflexivity.
Qed.

Lemma onClick_handler_run (itemIndex : Z)
    (onClick : option (SyntheticEvent -> SyntheticEvent))
    (e : SyntheticEvent) (w : World) :
  defaultPrevented (after_prop onClick e) = false ->
  exec (onClick_handler itemIndex onClick e) w
  = exec (broadcast itemIndex (setOpens w)) w /\
  trace (onClick_handler itemIndex onClick e) w
  = prop_call props_onClick onClick ++ trace (broadcast itemIndex (setOpens w)) w.
Proof.
  intros Hp. unfold onClick_handler.
  rewrite exec_bind, trace_bind.
  change (exec (call_prop props_onClick onClick e) w)
    with (snd (fst (call_prop props_onClick onClick e w))).
  change (trace (call_prop props_onClick onClick e) w)
    with (snd (call_prop props_onClick onClick e w)).
  rewrite call_prop_run. cbn [fst snd]. rewrite Hp.
  rewrite exec_bind, trace_bind. split; reflexivity.
Qed.

(** C10: the handler returned by [getOnClick(item)] registers the item at
    the end of the list; when it is invoked on an event that is not
    default-prevented, it makes, for each subscribed viewer in turn, the
    call that sets this viewer's index to the item's position followed by
    one visibility-changed(true) notification: N subscribers give N
    notifications, and every subscriber ends at the item's position. *)
Theorem getOnClick_notifies_each_subscriber
    (w0 : World) (item : JsValue)
    (onClick : option (SyntheticEvent -> SyntheticEvent))
    (w : World) (e : SyntheticEvent)
    (Hnot_prevented : defaultPrevented (after_prop onClick e) = false) :
  let handler := fst (fst (getOnClick item onClick w0)) in
  let itemIndex := length_of (items_current w0) in
  let calls := trace (handler e) w in
  index_array (items_current (exec (getOnClick item onClick) w0)) itemIndex = item /\
  calls = prop_call props_onClick onClick ++
          flat_map (fun v => [setOpen_call v (Some itemIndex); onVisibilityChange true])
                   (setOpens w) /\
  count (is_onVisibilityChange true) calls = List.length (setOpens w) /\
  forall v, In v (setOpens w) -> isOpen (exec (handler e) w) v = Some itemIndex.
Proof.
  intros handler itemIndex calls.
  assert (Hh : handler = onClick_handler itemIndex onClick).
  { subst handler itemIndex. unfold getOnClick, bind, get, put, ret; simpl.
    f_equal. unfold length_of. rewrite length_app. simpl. lia. }
  subst calls. rewrite Hh.
  destruct (onClick_handler_run itemIndex onClick e w Hnot_prevented) as [He Ht].
  rewrite He, Ht, broadcast_trace.
  repeat split.
  - subst itemIndex. unfold index_array, length_of, exec, getOnClick, bind, get, put, ret.
    simpl. destruct (Z.of_nat (List.length (items_current w0)) <? 0) eqn:E;
      [apply Z.ltb_lt in E; lia |].
    rewrite Nat2Z.id, app_nth2, Nat.sub_diag by lia. reflexivity.
  - rewrite count_app, broadcast_notifications.
    destruct onClick; reflexivity.
  - intros v Hin. rewrite broadcast_isOpen.
    assert (Hex : existsb (Nat.eqb v) (setOpens w) = true).
    { apply existsb_exists. exists v. split; [exact Hin | apply Nat.eqb_refl]. }
    now rewrite Hex.
Qed.

Lemma getOnClick_notifies_each_subscriber_witness :
  let w0 := mkWorld [JsObject 0] [3%nat; 5%nat]
                    (fun _ => None) (fun _ => None) (fun _ => 0%Q) in
  let e := mkEvent "" false false in
  let handler := fst (fst (getOnClick (JsObject 1) None w0)) in
  defaultPrevented (after_prop None e) = false /\
  trace (handler e) w0
  = [setOpen_call 3 (Some 1); onVisibilityChange true;
     setOpen_call 5 (Some 1); onVisibilityChange true] /\
  count (is_onVisibilityChange true) (trace (handler e) w0) = 2%nat.
Proof.
  split; [reflexivity |].
  pose proof (getOnClick_notifies_each_subscriber
                (mkWorld [JsObject 0] [3%nat; 5%nat]
                         (fun _ => None) (fun _ => None) (fun _ => 0%Q))
                (JsObject 1) None
                (mkWorld [JsObject 0] [3%nat; 5%nat]
                         (fun _ => None) (fun _ => None) (fun _ => 0%Q))
                (mkEvent "" false false) eq_refl) as H.
  destruct H as (_ & Ht & Hc & _).
  split; [exact Ht | exact Hc].
Defined.

(** ** [Lightbox.Root]: the right-arrow key *)

Lemma clamped_value (items : list JsValue) (n : Z) :
  clamped items (Some n) = Some (Z.max 0 (Z.min n (length_of items - 1))).
Proof.
  unfold clamped. destruct (n =? 0) eqn:E; [| reflexivity].
  apply Z.eqb_eq in E. subst n. f_equal. pose proof (length_of_nonneg items). lia.
Qed.

Lemma clamped_of_min (items : list JsValue) (n : Z) :
  clamped items (Some (Z.min n (length_of items - 1)))
  = Some (Z.max 0 (Z.min n (length_of items - 1))).
Proof. rewrite clamped_value. f_equal. lia. Qed.





(** ** [Lightbox.Viewport]: the mounted window *)

Lemma mounted_slots_of_map (p : Z -> bool) (l : list Z) :
  mounted_slots (map (fun i => if negb (p i) then None else Some i) l) = filter p l.
Proof.
  induction l as [| i l IH]; [reflexivity |].
  cbn [map filter]. unfold mounted_slots in *. cbn [flat_map].
  rewrite IH. destruct (p i); reflexivity.
Qed.

Lemma mounted_slots_children (items : list JsValue) (currentIndex : Z) :
  mounted_slots (Viewport_children items currentIndex)
  = filter (fun i => ToBoolean (index_array items i)) (visibleIndices items currentIndex).
Proof.
  unfold Viewport_children.
  apply (mounted_slots_of_map (fun i => ToBoolean (index_array items i))).
Qed.

Lemma visibleIndices_In (items : list JsValue) (currentIndex i : Z) :
  In i (visibleIndices items currentIndex) <->
  (i = currentIndex - 1 \/ i = currentIndex \/ i = currentIndex + 1) /\
  0 <= i < length_of items.
Proof.
  unfold visibleIndices. rewrite filter_In. simpl.
  rewrite andb_true_iff, Z.geb_le, Z.ltb_lt. intuition lia.
Qed.

Lemma visibleIndices_length (items : list JsValue) (currentIndex : Z) :
  (List.length (visibleIndices items currentIndex) <= 3)%nat.
Proof.
  unfold visibleIndices.
  apply (Nat.le_trans _ _ _ (filter_length_le _ _)). simpl. lia.
Qed.

(** C9, as stated, fails when an item is falsy: with the numbers 0 and 7
    as items and current index 0, the indices 0 and 1 are in the window
    and in range, yet only the slot of index 1 is mounted. *)
Lemma Viewport_skips_falsy_item :
  let w := mkWorld [JsNumber 0; JsNumber 7] [0%nat]
                   (fun _ => Some 0) (fun _ => None) (fun _ => 0%Q) in
  Viewport w 0%nat = Some [None; Some 1] /\
  visibleIndices (context_items w 0%nat) 0 = [0; 1] /\
  mounted_slots [None; Some 1] = [1].
Proof. repeat split; reflexivity. Qed.

(** C9 (amended): for every non-null current index and every item list
    (the list of the viewer's context, which the viewport reads), the
    viewport mounts item slots exactly for the indices of
    [{currentIndex - 1, currentIndex, currentIndex + 1}] that lie in
    [[0, length)] and whose item is truthy: never more than 3 slots at
    once, only for valid indices, and for all of the window's valid
    indices when no item of the list is falsy. *)
Theorem Viewport_mounts_window
    (w : World) (v : nat) (currentIndex : Z)
    (Hopen : isOpen w v = Some currentIndex) :
  let items := context_items w v in
  exists children,
    Viewport w v = Some children /\
    (forall i, In i (mounted_slots children) <->
               (i = currentIndex - 1 \/ i = currentIndex \/ i = currentIndex + 1) /\
               0 <= i < length_of items /\
               ToBoolean (index_array items i) = true) /\
    (List.length (mounted_slots children) <= 3)%nat /\
    ((forall item, In item items -> ToBoolean item = true) ->
     mounted_slots children = visibleIndices items currentIndex).
Proof.
  intros items. unfold Viewport. rewrite Hopen. fold items.
  exists (Viewport_children items currentIndex).
  rewrite mounted_slots_children.
  split; [reflexivity |]. split; [| split].
  - intros i. rewrite filter_In, visibleIndices_In. tauto.
  - apply (Nat.le_trans _ _ _ (filter_length_le _ _)), visibleIndices_length.
  - intros Htruthy. apply forallb_filter_id, forallb_forall.
    intros i Hi. apply visibleIndices_In in Hi. destruct Hi as [_ [Hlo Hhi]].
    apply Htruthy. unfold index_array.
    destruct (i <? 0) eqn:E; [apply Z.ltb_lt in E; lia |].
    apply nth_In. unfold length_of in Hhi. lia.
Qed.

Lemma Viewport_mounts_window_witness :
  let w := mkWorld [JsObject 0; JsObject 1; JsObject 2; JsObject 3] [0%nat]
                   (fun _ => Some 3) (fun _ => None) (fun _ => 0%Q) in
  isOpen w 0%nat = Some 3 /\
  exists children,
    Viewport w 0%nat = Some children /\
    (List.length (mounted_slots children) <= 3)%nat /\
    (In 2 (mounted_slots children) /\ In 3 (mounted_slots children)).
Proof.
  split; [reflexivity |].
  destruct (Viewport_mounts_window
              (mkWorld [JsObject 0; JsObject 1; JsObject 2; JsObject 3] [0%nat]
                       (fun _ => Some 3) (fun _ => None) (fun _ => 0%Q))
              0%nat 3 eq_refl) as (children & Hv & Hin & Hlen & _).
  exists children. split; [exact Hv |]. split; [exact Hlen |].
  split; apply Hin; (split; [lia | split; [unfold length_of; simpl; lia | reflexivity]]).
Defined.

(** ** [Lightbox.Item]: drag release and edge gating *)

Lemma Qgtb_lt (a b : Q) : Qgtb a b = true <-> (b < a)%Q.
Proof.
  unfold Qgtb. rewrite negb_true_iff, <- not_true_iff_false, Qle_bool_iff.
  split; [apply Qnot_le_lt | apply Qlt_not_le].
Qed.

Lemma Qgtb_le (a b : Q) : Qgtb a b = false <-> (a <= b)%Q.
Proof. unfold Qgtb. now rewrite negb_false_iff, Qle_bool_iff. Qed.

Lemma Qltb_lt (a b : Q) : Qltb a b = true <-> (a < b)%Q.
Proof. apply (Qgtb_lt b a). Qed.


Lemma started_off_edge_released (g : DragState) (root : option Z) :
  down g = false -> started_off_edge g root = false.
Proof. unfold started_off_edge. now intros ->. Qed.

Lemma clamped_of_min_max (items : list JsValue) (n : Z) :
  clamped items (Some (Z.min (Z.max n 0) (length_of items - 1)))
  = Some (Z.max 0 (Z.min (Z.max n 0) (length_of items - 1))).
Proof. apply clamped_of_min. Qed.

Lemma Item_onDrag_release_far (w : World) (v : nat) (currentIndex : Z) (g : DragState) :
  isOpen w v = Some currentIndex ->
  down g = false ->
  (100 < Qabs (mx g))%Q ->
  let L := length_of (context_items w v) in
  let N := length_of (items_current w) in
  let nextIndex := currentIndex + release_step g in
  let stored := release_stored L N nextIndex in
  let moved := with_offsetX (with_isOpen w v (Some stored)) v 0 in
  Item_onDrag v g w
  = if nextIndex >=? L - 1
    then match onLoadNext_settles w with
         | resolved =>
             (tt, moved, [onLoadNext; setOpen_call v (Some stored); setOffset_call v 0])
         | _ => (tt, w, [onLoadNext])
         end
    else (tt, moved, [setOpen_call v (Some stored); setOffset_call v 0]).
Proof.
  intros Hopen Hdown Hfar L N nextIndex stored moved.
  unfold Item_onDrag, bind, get.
  rewrite Hopen, (started_off_edge_released g _ Hdown), Hdown.
  apply Qgtb_lt in Hfar. rewrite Hfar.
  fold (release_step g). fold L nextIndex. unfold setCurrentIndex, await_onLoadNext.
  destruct (nextIndex >=? L - 1).
  - destruct (onLoadNext_settles w); try reflexivity.
    rewrite (setIndex_eq w v). unfold requested. rewrite clamped_value. reflexivity.
  - cbn [ret]. rewrite (setIndex_eq w v). unfold requested.
    rewrite clamped_value. reflexivity.
Qed.

Lemma Item_onDrag_release_near (w : World) (v : nat) (currentIndex : Z) (g : DragState) :
  isOpen w v = Some currentIndex ->
  down g = false ->
  (Qabs (mx g) <= 100)%Q ->
  Item_onDrag v g w = (tt, with_offsetX w v 0, [setOffset_call v 0]).
Proof.
  intros Hopen Hdown Hnear.
  unfold Item_onDrag, bind, get.
  rewrite Hopen, (started_off_edge_released g _ Hdown), Hdown.
  apply Qgtb_le in Hnear. rewrite Hnear. reflexivity.
Qed.




Lemma started_off_edge_iff (g : DragState) (width : Z) :
  down g = true ->
  started_off_edge g (Some width) = true <->
  (edgeThreshold width < ix g /\ ix g < far_edge width)%Q.
Proof.
  intros Hdown. unfold started_off_edge. rewrite Hdown.
  now rewrite andb_true_iff, Qgtb_lt, Qltb_lt.
Qed.

(** C5, as stated, fails in two ways. When the root container is not
    mounted the handler makes no edge test: a drag that starts anywhere,
    here at 500, is honored. And the edge test is made in doubles: in a
    container of width 9, a drag that starts at the double nearest to
    5.85 lies in the central 30% of the width (between 3.15 and 5.85),
    yet it is honored, because [9 - 9 * 0.35] rounds to that same double. *)
Lemma Item_drag_without_root_is_not_gated :
  let no_root := mkWorld [JsObject 0; JsObject 1; JsObject 2] [0%nat]
                   (fun _ => Some 1) (fun _ => None) (fun _ => 0%Q) in
  let narrow := mkWorld [JsObject 0; JsObject 1; JsObject 2] [0%nat]
                   (fun _ => Some 1) (fun _ => Some 9) (fun _ => 0%Q) in
  trace (Item_onDrag 0 (mkDrag true 20 1 500)) no_root = [setOffset_call 0 20] /\
  ((inject_Z 9 * 0.35 < binary64 5.85 /\ binary64 5.85 < inject_Z 9 * 0.65)%Q /\
   trace (Item_onDrag 0 (mkDrag true 20 1 (binary64 5.85))) narrow
   = [setOffset_call 0 20]).
Proof. repeat split; vm_compute; reflexivity. Qed.

(** C5 (amended): on an item slot of an open viewer, for a drag event
    with the pointer down. If the root container is mounted, with width
    [width], the handler computes in doubles the threshold
    [t = width * 0.35] and the far edge [width - t]: a drag whose initial
    x lies strictly between the two is cancelled at once, and neither the
    drag offset nor the current index changes; a drag that is honored has
    its initial x at most [t] or at least [width - t], and then the
    offset follows the movement. If the root container is not mounted,
    no edge test is made and the drag is honored. *)
Theorem Item_drag_edge_gating
    (w : World) (v : nat) (currentIndex : Z) (g : DragState)
    (Hopen : isOpen w v = Some currentIndex)
    (Hdown : down g = true) :
  let w' := exec (Item_onDrag v g) w in
  let calls := trace (Item_onDrag v g) w in
  (forall width, rootRef_current w v = Some width ->
     ((edgeThreshold width < ix g /\ ix g < far_edge width)%Q ->
      calls = [cancel] /\ w' = w /\
      offsetX w' v = offsetX w v /\ isOpen w' v = isOpen w v) /\
     (calls <> [cancel] ->
      ((ix g <= edgeThreshold width)%Q \/ (far_edge width <= ix g)%Q) /\
      calls = [setOffset_call v (mx g)] /\
      offsetX w' v = mx g /\ isOpen w' v = isOpen w v)) /\
  (rootRef_current w v = None ->
   calls = [setOffset_call v (mx g)] /\
   offsetX w' v = mx g /\ isOpen w' v = isOpen w v).
Proof.
  intros w' calls. subst w' calls. unfold exec, trace, Item_onDrag, bind, get.
  rewrite Hopen. split.
  - intros width Hroot. rewrite Hroot.
    pose proof (started_off_edge_iff g width Hdown) as Hgate.
    destruct (started_off_edge g (Some width)) eqn:E; cbn.
    + split; [intros _; repeat split; assumption | intros Hc; now elim Hc].
    + rewrite Hdown. cbn. split.
      * intros Hcentral. apply Hgate in Hcentral. discriminate.
      * intros _. rewrite update_same. repeat split; try assumption.
        destruct (Qlt_le_dec (edgeThreshold width) (ix g)) as [H1 | H1];
          [| now left].
        destruct (Qlt_le_dec (ix g) (far_edge width)) as [H2 | H2];
          [| now right].
        assert (false = true) by (apply Hgate; split; assumption). discriminate.
  - intros Hroot. rewrite Hroot.
    unfold started_off_edge. rewrite Hdown. cbn. rewrite update_same.
    repeat split; assumption.
Qed.

Lemma Item_drag_edge_gating_witness :
  let w := mkWorld [JsObject 0; JsObject 1; JsObject 2] [0%nat]
                   (fun _ => Some 1) (fun _ => Some 360) (fun _ => 0%Q) in
  let g := mkDrag true 20 1 126 in
  (isOpen w 0%nat = Some 1 /\ down g = true) /\
  (edgeThreshold 360 < ix g /\ ix g < far_edge 360)%Q /\
  trace (Item_onDrag 0 g) w = [cancel].
Proof.
  split; [split; reflexivity |].
  assert (Hcentral : (edgeThreshold 360 < 126 /\ 126 < far_edge 360)%Q)
    by (split; vm_compute; reflexivity).
  split; [exact Hcentral |].
  exact (proj1 (proj1 (proj1 (Item_drag_edge_gating
                  (mkWorld [JsObject 0; JsObject 1; JsObject 2] [0%nat]
                           (fun _ => Some 1) (fun _ => Some 360) (fun _ => 0%Q))
                  0%nat 1 (mkDrag true 20 1 126) eq_refl eq_refl) 360 eq_refl)
                Hcentral)).
Defined.

(** ** [Lightbox.Pinchable]: scale bounds, double click, swipe to close *)

Lemma clamp_scale_bounds (s : Q) : (1 <= Qmax 1 (Qmin s 4) <= 4)%Q.
Proof.
  split.
  - apply Q.le_max_l.
  - apply Q.max_lub; [discriminate | apply Q.le_min_r].
Qed.

Lemma Pinchable_onPinch_run (s : Q) (st : PinchableState) :
  Pinchable_onPinch s st
  = (tt,
     mkPinchable (mkTransform (Qmax 1 (Qmin s 4)) 0 0) (swipeOffsetY st),
     [preventDefault;
      setTransform_call (mkTransform (Qmax 1 (Qmin s 4)) 0 0);
      onZoomChange (Qgtb (Qmax 1 (Qmin s 4)) 1)]).
Proof. reflexivity. Qed.

Lemma Pinchable_handleDoubleClick_run (e : SyntheticEvent) (st : PinchableState) :
  Pinchable_handleDoubleClick e st
  = (tt,
     mkPinchable (mkTransform 1 0 0) (swipeOffsetY st),
     [console_log "hi"; stopPropagation;
      setTransform_call (mkTransform 1 0 0); onZoomChange false]).
Proof. reflexivity. Qed.

(** A drag never changes the scale. *)
Lemma Pinchable_onDrag_scale (g : PinchDrag) (st : PinchableState) :
  scale (transform (exec (Pinchable_onDrag g) st)) = scale (transform st).
Proof.
  unfold Pinchable_onDrag, exec, bind, get, when. simpl.
  destruct (negb (Qeq_bool (scale (transform st)) 1)); simpl;
    destruct (pinching g); simpl; try reflexivity;
    destruct (Qgtb (scale (transform st)) 1); simpl; try reflexivity;
    destruct (drag_down g); simpl; try reflexivity;
    destruct (Qgtb (my g) 100); reflexivity.
Qed.

Lemma Pinchable_handle_preserves (ev : PinchableEvent) (st : PinchableState) :
  scale_in_bounds st -> scale_in_bounds (exec (Pinchable_handle ev) st).
Proof.
  unfold scale_in_bounds. intros Hst.
  destruct ev as [g | s | c | e | e | e]; cbn [Pinchable_handle].
  - now rewrite Pinchable_onDrag_scale.
  - unfold exec. rewrite Pinchable_onPinch_run. cbn. apply clamp_scale_bounds.
  - destruct c; exact Hst.
  - unfold Pinchable_handleClick, exec, bind, get, when. simpl.
    destruct (negb (Qeq_bool (scale (transform st)) 1)); simpl; [exact Hst |].
    destruct (target_is_currentTarget e); exact Hst.
  - unfold exec. rewrite Pinchable_handleDoubleClick_run. cbn.
    split; discriminate.
  - unfold Pinchable_handleKeyDown, exec, bind, get, when. simpl.
    destruct (Qeq_bool (scale (transform st)) 1); simpl; [exact Hst |].
    destruct (String.eqb (key e) "ArrowLeft" || String.eqb (key e) "ArrowRight");
      exact Hst.
Qed.

Lemma Pinchable_run_preserves (evs : list PinchableEvent) (st : PinchableState) :
  scale_in_bounds st -> scale_in_bounds (exec (Pinchable_run evs) st).
Proof.
  unfold Pinchable_run. revert st.
  induction evs as [| ev evs IH]; intros st Hst; [exact Hst |].
  cbn [for_of]. rewrite exec_bind. apply IH, Pinchable_handle_preserves, Hst.
Qed.

(** C6: after every sequence of events handled by a freshly mounted
    wrapper (drags, pinches, double clicks, and also clicks, wheel and
    key events), the scale of the transform is in [[1, 4]]; and a pinch
    update, from any state, stores the incoming scale clamped into
    [[1, 4]] together with the pan [(0, 0)]. *)
Theorem Pinchable_scale_bounds :
  (forall evs : list PinchableEvent,
     let st := exec (Pinchable_run evs) Pinchable_initial in
     (1 <= scale (transform st) <= 4)%Q) /\
  (forall (st : PinchableState) (s : Q),
     let st' := exec (Pinchable_onPinch s) st in
     scale (transform st') = Qmax 1 (Qmin s 4) /\
     (1 <= scale (transform st') <= 4)%Q /\
     x (transform st') = 0%Q /\ y (transform st') = 0%Q).
Proof.
  split.
  - intros evs. apply (Pinchable_run_preserves evs Pinchable_initial).
    split; discriminate.
  - intros st s. unfold exec. rewrite Pinchable_onPinch_run. cbn.
    repeat split; try reflexivity; apply clamp_scale_bounds.
Qed.

(** C8: from every transform state, a double click (or double tap) stores
    exactly the transform [{ scale: 1, x: 0, y: 0 }] and calls the
    zoom-change callback with [false]. *)
Theorem Pinchable_doubleClick_resets (st : PinchableState) (e : SyntheticEvent) :
  transform (exec (Pinchable_handleDoubleClick e) st) = mkTransform 1 0 0 /\
  trace (Pinchable_handleDoubleClick e) st
  = [console_log "hi"; stopPropagation;
     setTransform_call (mkTransform 1 0 0); onZoomChange false].
Proof.
  unfold exec, trace. rewrite Pinchable_handleDoubleClick_run. split; reflexivity.
Qed.

Lemma Pinchable_onDrag_unzoomed (g : PinchDrag) (st : PinchableState) :
  (scale (transform st) == 1)%Q ->
  pinching g = false ->
  Pinchable_onDrag g st
  = if drag_down g
    then (tt, mkPinchable (transform st) (Qmax 0 (my g)),
          [setSwipeOffsetY_call (Qmax 0 (my g))])
    else (tt, mkPinchable (transform st) 0,
          (if Qgtb (my g) 100 then [onRequestClose] else [])
            ++ [setSwipeOffsetY_call 0]).
Proof.
  intros Hscale Hpinch.
  assert (Heq : Qeq_bool (scale (transform st)) 1 = true)
    by (apply Qeq_bool_iff; exact Hscale).
  assert (Hgt : Qgtb (scale (transform st)) 1 = false)
    by (apply Qgtb_le; rewrite Hscale; apply Qle_refl).
  unfold Pinchable_onDrag, bind, get, when. simpl.
  rewrite Heq, Hpinch, Hgt. simpl.
  destruct (drag_down g); [reflexivity |].
  destruct (Qgtb (my g) 100); reflexivity.
Qed.

(** C7, as stated, fails for a drag event that arrives during a pinch:
    the handler cancels the drag and returns. With the pointer down and a
    downward movement of 50 the swipe offset stays 0 instead of 50, and a
    release does not reset an offset of 50. *)
Lemma Pinchable_drag_while_pinching :
  let dragged := mkPinchable (mkTransform 1 0 0) 50 in
  (swipeOffsetY (exec (Pinchable_onDrag (mkPinchDrag 0 50 true 50 true))
                      Pinchable_initial) = 0%Q /\
   Qmax 0 50 = 50%Q /\
   trace (Pinchable_onDrag (mkPinchDrag 0 50 true 50 true)) Pinchable_initial
   = [cancel]) /\
  (swipeOffsetY (exec (Pinchable_onDrag (mkPinchDrag 0 50 false 50 true)) dragged)
   = 50%Q /\
   trace (Pinchable_onDrag (mkPinchDrag 0 50 false 50 true)) dragged = [cancel]).
Proof. repeat split; reflexivity. Qed.

(** C7 (amended): for every drag event on an unzoomed wrapper
    ([scale == 1]) that does not arrive during a pinch: while the pointer
    is down the swipe offset is [max(0, deltaY)], hence never negative,
    and the opacity is [max(0.5, 1 - offset/300)]; on release the
    close-intercept callback is called exactly once if the movement
    exceeds 100 and not at all otherwise, and the swipe offset is reset
    to 0 in both cases. *)
Theorem Pinchable_swipe_to_close
    (st : PinchableState) (g : PinchDrag)
    (Hunzoomed : (scale (transform st) == 1)%Q)
    (Hnot_pinching : pinching g = false) :
  let st' := exec (Pinchable_onDrag g) st in
  let calls := trace (Pinchable_onDrag g) st in
  (drag_down g = true ->
   swipeOffsetY st' = Qmax 0 (my g) /\
   (0 <= swipeOffsetY st')%Q /\
   Pinchable_opacity st' = Qmax 0.5 (1 - swipeOffsetY st' / 300) /\
   calls = [setSwipeOffsetY_call (Qmax 0 (my g))]) /\
  (drag_down g = false ->
   swipeOffsetY st' = 0%Q /\
   calls = (if Qgtb (my g) 100 then [onRequestClose] else [])
             ++ [setSwipeOffsetY_call 0] /\
   ((100 < my g)%Q -> count is_onRequestClose calls = 1%nat) /\
   ((my g <= 100)%Q -> count is_onRequestClose calls = 0%nat)).
Proof.
  intros st' calls. subst st' calls. unfold exec, trace.
  rewrite (Pinchable_onDrag_unzoomed g st Hunzoomed Hnot_pinching).
  assert (Heq : Qeq_bool (scale (transform st)) 1 = true)
    by (apply Qeq_bool_iff; exact Hunzoomed).
  split; intros Hdown; rewrite Hdown; cbn [fst snd swipeOffsetY].
  - unfold Pinchable_opacity. cbn [transform swipeOffsetY]. rewrite Heq.
    repeat split. apply Q.le_max_l.
  - repeat split.
    + intros Hfar. apply Qgtb_lt in Hfar. rewrite Hfar. reflexivity.
    + intros Hnear. apply Qgtb_le in Hnear. rewrite Hnear. reflexivity.
Qed.

Lemma Pinchable_swipe_to_close_witness :
  let g := mkPinchDrag 0 120 false 120 false in
  ((scale (transform Pinchable_initial) == 1)%Q /\ pinching g = false) /\
  swipeOffsetY (exec (Pinchable_onDrag g) Pinchable_initial) = 0%Q /\
  count is_onRequestClose (trace (Pinchable_onDrag g) Pinchable_initial) = 1%nat.
Proof.
  split; [split; reflexivity |].
  destruct (Pinchable_swipe_to_close Pinchable_initial
              (mkPinchDrag 0 120 false 120 false)
              (Qeq_refl 1) eq_refl) as [_ Hrelease].
  destruct (Hrelease eq_refl) as (Hoff & _ & Hfar & _).
  split; [exact Hoff | apply Hfar; reflexivity].
Defined.

(** ** Scenarios *)

(** Items [A, B, C], click on B: the viewer opens at index 1 with one
    notification, and once it has rendered, the viewport mounts the slots
    of A, B and C. *)
Example scenario_open_second_of_three :
  let plain := mkEvent "" false false in
  let on_b := fst (fst (render_three (JsObject 0) (JsObject 1) (JsObject 2) one_viewer)) in
  let rendered := exec (render_three (JsObject 0) (JsObject 1) (JsObject 2)) one_viewer in
  let opened := exec (LightboxView_render 0) (exec (on_b plain) rendered) in
  trace (on_b plain) rendered = [setOpen_call 0 (Some 1); onVisibilityChange true] /\
  isOpen opened 0%nat = Some 1 /\
  Viewport opened 0%nat = Some [Some 0; Some 1; Some 2].
Proof. repeat split; reflexivity. Qed.

(** Zoomed to scale 2.5, a right-arrow key is stopped at the wrapper and
    does not reach the root. *)
Example scenario_zoomed_arrow_key :
  let zoomed := exec (Pinchable_onPinch 2.5) Pinchable_initial in
  scale (transform zoomed) = 2.5%Q /\
  trace (Pinchable_handleKeyDown (mkEvent "ArrowRight" false false)) zoomed
  = [stopPropagation].
Proof. split; reflexivity. Qed.

(** The last item: a right-arrow press at the end of the list calls
    load-next and stays on the last index. *)
Example scenario_arrow_right_at_end :
  let w := mkWorld [JsObject 0; JsObject 1; JsObject 2] [0%nat]
                   (fun _ => Some 2) (fun _ => Some 1000) (fun _ => 0%Q) in
  let e := mkEvent "ArrowRight" false false in
  trace (Root_onKeydown 0 None e) w = [onLoadNext; setOpen_call 0 (Some 2)] /\
  isOpen (exec (Root_onKeydown 0 None e) w) 0%nat = Some 2.
Proof. split; reflexivity. Qed.

(** A leftward release past the threshold at index 1 of 3 goes to the
    last index, after load-next. *)
Example scenario_drag_left_to_last :
  let w := mkWorld [JsObject 0; JsObject 1; JsObject 2] [0%nat]
                   (fun _ => Some 1) (fun _ => Some 1000) (fun _ => 0%Q) in
  trace (Item_onDrag 0 (mkDrag false (-150) (-1) 900)) w
  = [onLoadNext; setOpen_call 0 (Some 2); setOffset_call 0 0].
Proof. reflexivity. Qed.

(** * Further properties of the code *)

(** ** Renders and registrations *)

Lemma getOnClick_run (item : JsValue)
    (onClick : option (SyntheticEvent -> SyntheticEvent)) (w : World) :
  getOnClick item onClick w
  = (onClick_handler (length_of (items_current w)) onClick,
     with_items w (items_current w ++ [item]), []).
Proof.
  unfold getOnClick, bind, get, put, ret. simpl.
  repeat f_equal. unfold length_of. rewrite length_app. simpl. lia.
Qed.

Lemma register_run (regs : list Registration) (w : World) :
  register regs w
  = (handlers_from (List.length (items_current w)) regs,
     with_items w (items_current w ++ map fst regs), []).
Proof.
  revert w. induction regs as [| [item onClick] rest IH]; intros w.
  - cbn. rewrite app_nil_r. destruct w; reflexivity.
  - cbn [register handlers_from map fst]. unfold bind at 1.
    rewrite getOnClick_run. unfold bind at 1. rewrite IH. cbn.
    rewrite length_app, <- app_assoc. cbn.
    replace (List.length (items_current w) + 1)%nat
      with (S (List.length (items_current w))) by lia.
    reflexivity.
Qed.

Lemma render_run (regs : list Registration) (w : World) :
  render regs w = (handlers_from 0 regs, with_items w (map fst regs), []).
Proof.
  unfold render, bind, useLightbox_render. rewrite register_run. reflexivity.
Qed.

Lemma handlers_from_nth (regs : list Registration) (n k : nat)
    (item : JsValue) (onClick : option (SyntheticEvent -> SyntheticEvent)) :
  nth_error regs k = Some (item, onClick) ->
  nth_error (handlers_from n regs) k
  = Some (onClick_handler (Z.of_nat (n + k)) onClick).
Proof.
  revert n k. induction regs as [| [i oc] rest IH]; intros n k Hk.
  - destruct k; discriminate.
  - destruct k as [| k]; cbn in *.
    + injection Hk as -> ->. now rewrite Nat.add_0_r.
    + rewrite (IH (S n) k Hk). do 3 f_equal. lia.
Qed.

Lemma handlers_from_length (regs : list Registration) (n : nat) :
  List.length (handlers_from n regs) = List.length regs.
Proof.
  revert n. induction regs as [| [i oc] rest IH]; intros n; cbn; [| rewrite IH];
    reflexivity.
Qed.

Lemma index_array_nth (items : list JsValue) (k : nat) (item : JsValue) :
  nth_error items k = Some item -> index_array items (Z.of_nat k) = item.
Proof.
  intros Hk. unfold index_array.
  destruct (Z.of_nat k <? 0) eqn:E; [apply Z.ltb_lt in E; lia |].
  rewrite Nat2Z.id. now apply nth_error_nth.
Qed.

(** X1. A render rebuilds the item list from its own registrations,
    whatever the list held before: the list is the registered items in
    call order, there is one handler per registration, and the handler
    of the k-th registration is bound to index k, the position where its
    item can be read back. *)
Theorem render_registers_in_call_order (regs : list Registration) (w : World) :
  let handlers := fst (fst (render regs w)) in
  let w' := exec (render regs) w in
  items_current w' = map fst regs /\
  length_of (items_current w') = Z.of_nat (List.length regs) /\
  List.length handlers = List.length regs /\
  trace (render regs) w = [] /\
  forall k item onClick,
    nth_error regs k = Some (item, onClick) ->
    nth_error handlers k = Some (onClick_handler (Z.of_nat k) onClick) /\
    index_array (items_current w') (Z.of_nat k) = item.
Proof.
  intros handlers w'. subst handlers w'. unfold exec, trace.
  rewrite render_run. cbn [fst snd items_current with_items].
  split; [reflexivity |]. split; [unfold length_of; now rewrite length_map |].
  split; [apply handlers_from_length |]. split; [reflexivity |].
  intros k item onClick Hk. split.
  - apply (handlers_from_nth regs 0 k item onClick Hk).
  - apply index_array_nth. rewrite nth_error_map.
    unfold Registration in *. rewrite Hk. reflexivity.
Qed.

(** ** The index invariant between two renders *)

Section Preservation.

Variable items : list JsValue.
Hypothesis items_nonempty : items <> [].

Lemma preserves_ret {A} (a : A) : preserves items (ret a).
Proof. intros w Hw. exact Hw. Qed.

Lemma preserves_call (c : Call) : preserves items (call c).
Proof. intros w Hw. exact Hw. Qed.

Lemma preserves_get : preserves items (@get World).
Proof. intros w Hw. exact Hw. Qed.

Lemma preserves_bind {A B} (m : M World A) (k : A -> M World B) :
  preserves items m -> (forall a, preserves items (k a)) ->
  preserves items (bind m k).
Proof. intros Hm Hk w Hw. rewrite exec_bind. apply Hk, Hm, Hw. Qed.

Lemma preserves_when (b : bool) (m : M World unit) :
  preserves items m -> preserves items (when b m).
Proof. intros Hm. destruct b; [exact Hm | apply preserves_ret]. Qed.

Lemma preserves_for_of {A} (xs : list A) (body : A -> M World unit) :
  (forall a, preserves items (body a)) -> preserves items (for_of xs body).
Proof.
  intros Hbody. induction xs as [| a rest IH]; [apply preserves_ret |].
  cbn [for_of]. apply preserves_bind; [apply Hbody | intros _; exact IH].
Qed.

Lemma well_indexed_with_isOpen (w : World) (v : nat) (n : option Z) :
  well_indexed items w -> valid_index items n ->
  well_indexed items (with_isOpen w v n).
Proof.
  intros [Hi Hv] Hn. split; [exact Hi |].
  intros u. cbn. unfold update. destruct (Nat.eqb u v); [exact Hn | apply Hv].
Qed.

Lemma preserves_setOpen_value (v : nat) (n : option Z) :
  valid_index items n -> preserves items (setOpen v (value n)).
Proof. intros Hn w Hw. now apply well_indexed_with_isOpen. Qed.

Lemma clamped_valid (next : option Z) : valid_index items (clamped items next).
Proof.
  pose proof (length_of_pos _ items_nonempty).
  unfold clamped. destruct next as [n |]; [| exact I].
  destruct (n =? 0); cbn; lia.
Qed.

Lemma preserves_setIndex (v : nat) (index : SetStateAction (option Z)) :
  preserves items (setIndex v index).
Proof.
  intros w Hw. unfold exec. rewrite setIndex_eq. cbn [fst snd].
  apply well_indexed_with_isOpen; [exact Hw |].
  destruct Hw as [-> _]. apply clamped_valid.
Qed.

Lemma preserves_handleClose (v : nat) : preserves items (handleClose v).
Proof.
  apply preserves_bind; [now apply preserves_setOpen_value |].
  intros _. apply preserves_call.
Qed.

Lemma preserves_setOffset (v : nat) (q : Q) : preserves items (setOffset v q).
Proof. intros w Hw. exact Hw. Qed.

Lemma preserves_call_prop (c : Call)
    (handler : option (SyntheticEvent -> SyntheticEvent)) (e : SyntheticEvent) :
  preserves items (call_prop c handler e).
Proof. intros w Hw. unfold exec. now rewrite call_prop_run. Qed.

Lemma preserves_Root_onKeydown (v : nat)
    (onKeyDown : option (SyntheticEvent -> SyntheticEvent)) (e : SyntheticEvent) :
  preserves items (Root_onKeydown v onKeyDown e).
Proof.
  unfold Root_onKeydown.
  apply preserves_bind; [apply preserves_get | intros w0].
  apply preserves_bind; [apply preserves_call_prop | intros e'].
  destruct (defaultPrevented e'); [apply preserves_ret |].
  destruct (isOpen w0 v) as [currentIndex |]; [| apply preserves_ret].
  apply preserves_bind.
  - apply preserves_when, preserves_bind;
      [apply preserves_call | intros _; apply preserves_handleClose].
  - intros _. destruct (String.eqb (key e') "ArrowRight").
    + apply preserves_bind; [apply preserves_when, preserves_call |].
      intros _. apply preserves_setIndex.
    + destruct (String.eqb (key e') "ArrowLeft");
        [apply preserves_setIndex | apply preserves_ret].
Qed.

Lemma preserves_await_onLoadNext : preserves items await_onLoadNext.
Proof. intros w Hw. exact Hw. Qed.

Lemma preserves_LightboxView_render (v : nat) :
  preserves items (LightboxView_render v).
Proof.
  intros w Hw. unfold exec, LightboxView_render.
  destruct (option_Z_eqb (isOpen w v) (context_isOpen w v)); exact Hw.
Qed.

Lemma preserves_rerender : preserves items rerender.
Proof.
  unfold rerender. apply preserves_bind; [apply preserves_get | intros w0].
  apply preserves_for_of. apply preserves_LightboxView_render.
Qed.

Lemma preserves_Item_onDrag (v : nat) (g : DragState) :
  preserves items (Item_onDrag v g).
Proof.
  unfold Item_onDrag.
  apply preserves_bind; [apply preserves_get | intros w0].
  destruct (isOpen w0 v) as [currentIndex |]; [| apply preserves_ret].
  destruct (started_off_edge g (rootRef_current w0 v)); [apply preserves_call |].
  destruct (down g); [apply preserves_setOffset |].
  destruct (Qgtb (Qabs (mx g)) 100); [| apply preserves_setOffset].
  apply preserves_bind.
  - destruct (_ >=? _); [apply preserves_await_onLoadNext | apply preserves_ret].
  - intros resumed. destruct resumed; [| apply preserves_ret].
    apply preserves_bind; [apply preserves_setIndex | intros _; apply preserves_setOffset].
Qed.

Lemma preserves_onClick_handler (k : nat)
    (onClick : option (SyntheticEvent -> SyntheticEvent)) (e : SyntheticEvent) :
  (k < List.length items)%nat ->
  preserves items (onClick_handler (Z.of_nat k) onClick e).
Proof.
  intros Hk. unfold onClick_handler.
  apply preserves_bind; [apply preserves_call_prop | intros e'].
  destruct (defaultPrevented e'); [apply preserves_ret |].
  apply preserves_bind; [apply preserves_get | intros w0].
  apply preserves_for_of. intros u.
  apply preserves_bind; [| intros _; apply preserves_call].
  apply preserves_setOpen_value. cbn. unfold length_of. lia.
Qed.

End Preservation.

Lemma handlers_from_inv (regs : list Registration) (k : nat) (h : ClickHandler) :
  nth_error (handlers_from 0 regs) k = Some h ->
  (k < List.length regs)%nat /\
  exists onClick, h = onClick_handler (Z.of_nat k) onClick.
Proof.
  intros Hh.
  assert (Hk : (k < List.length regs)%nat).
  { rewrite <- (handlers_from_length regs 0). apply nth_error_Some. congruence. }
  split; [exact Hk |].
  destruct (nth_error regs k) as [[item onClick] |] eqn:E;
    [| apply nth_error_None in E; lia].
  exists onClick. rewrite (handlers_from_nth regs 0 k item onClick E) in Hh.
  now injection Hh as <-.
Qed.

Lemma preserves_dispatch (regs : list Registration) (ev : UserEvent) :
  map fst regs <> [] ->
  preserves (map fst regs) (dispatch (handlers_from 0 regs) ev).
Proof.
  intros Hne.
  destruct ev as [v okd e | v e | v oc e | v g | k e | v index | v]; cbn [dispatch].
  - now apply preserves_Root_onKeydown.
  - apply preserves_when, preserves_handleClose.
  - unfold Close_onClick.
    apply preserves_bind; [apply preserves_call_prop | intros e'].
    destruct (defaultPrevented e'); [apply preserves_ret |].
    apply preserves_bind; [apply preserves_call | intros _; apply preserves_handleClose].
  - now apply preserves_Item_onDrag.
  - destruct (nth_error (handlers_from 0 regs) k) as [h |] eqn:E;
      [| apply preserves_ret].
    destruct (handlers_from_inv regs k h E) as [Hk [onClick ->]].
    apply preserves_onClick_handler. now rewrite length_map.
  - now apply preserves_setIndex.
  - apply preserves_handleClose.
Qed.

(** X2. Between two renders the current index stays valid: if the render
    registers at least one item and starts from viewers whose index is
    [null] or valid for the new list, then after every sequence of key
    presses, backdrop and close-button clicks, item drags, item clicks,
    [setCurrentIndex] calls and [close] calls, the item list is still the
    registered one and every viewer's index is [null] or in
    [[0, length - 1]]. *)
Theorem session_keeps_index_valid
    (regs : list Registration) (w0 : World) (evs : list UserEvent) (v : nat)
    (Hregs : regs <> [])
    (Hstart : forall u, valid_index (map fst regs) (isOpen w0 u)) :
  let handlers := fst (fst (render regs w0)) in
  let w := exec (session handlers evs) (exec (render regs) w0) in
  items_current w = map fst regs /\
  (isOpen w v = None \/
   exists n, isOpen w v = Some n /\ 0 <= n <= length_of (items_current w) - 1).
Proof.
  intros handlers w.
  assert (Hne : map fst regs <> []) by (destruct regs; [congruence | discriminate]).
  assert (Hw : well_indexed (map fst regs) w).
  { subst w handlers. unfold exec at 2. rewrite render_run. cbn [fst snd].
    assert (H1 : well_indexed (map fst regs) (with_items w0 (map fst regs)))
      by (split; [reflexivity | exact Hstart]).
    revert H1. generalize (with_items w0 (map fst regs)).
    unfold session. induction evs as [| ev rest IH]; intros w1 H1; [exact H1 |].
    cbn [for_of]. rewrite exec_bind. apply IH.
    apply preserves_bind; [now apply preserves_dispatch | | exact H1].
    intros _. now apply preserves_rerender. }
  destruct Hw as [Hitems Hvalid]. split; [exact Hitems |].
  specialize (Hvalid v). rewrite Hitems.
  destruct (isOpen w v) as [n |]; [right | now left].
  exists n. split; [reflexivity | cbn in Hvalid; lia].
Qed.

Lemma session_keeps_index_valid_witness :
  let regs := [(JsObject 0, None); (JsObject 1, None)] : list Registration in
  let evs := [ItemClick 1 (mkEvent "" false false);
              KeyPress 0 None (mkEvent "ArrowRight" false false);
              ItemDrag 0 (mkDrag false 150 1 10)] in
  let handlers := fst (fst (render regs one_viewer)) in
  let w := exec (session handlers evs) (exec (render regs) one_viewer) in
  (regs <> [] /\ forall u, valid_index (map fst regs) (isOpen one_viewer u)) /\
  (isOpen w 0%nat = None \/
   exists n, isOpen w 0%nat = Some n /\ 0 <= n <= length_of (items_current w) - 1).
Proof.
  split; [split; [discriminate | intros u; exact I] |].
  exact (proj2 (session_keeps_index_valid
                  [(JsObject 0, None); (JsObject 1, None)] one_viewer
                  [ItemClick 1 (mkEvent "" false false);
                   KeyPress 0 None (mkEvent "ArrowRight" false false);
                   ItemDrag 0 (mkDrag false 150 1 10)] 0%nat
                  ltac:(discriminate) (fun u => I))).
Defined.

(** ** Opening by a click *)

Lemma onClick_handler_prevented (itemIndex : Z)
    (onClick : option (SyntheticEvent -> SyntheticEvent))
    (e : SyntheticEvent) (w : World) :
  defaultPrevented (after_prop onClick e) = true ->
  onClick_handler itemIndex onClick e w = (tt, w, prop_call props_onClick onClick).
Proof.
  intros Hp. unfold onClick_handler, bind. rewrite call_prop_run, Hp. cbn.
  now rewrite app_nil_r.
Qed.

Lemma option_Z_eqb_eq (a b : option Z) : option_Z_eqb a b = true <-> a = b.
Proof.
  destruct a as [m |], b as [n |]; cbn; try (split; congruence).
  rewrite Z.eqb_eq. split; congruence.
Qed.

Lemma broadcast_frame (itemIndex : Z) (subscribers : list nat) (w : World) :
  let w' := exec (broadcast itemIndex subscribers) w in
  items_current w' = items_current w /\
  context_items w' = context_items w /\
  context_isOpen w' = context_isOpen w.
Proof.
  unfold broadcast. revert w.
  induction subscribers as [| u rest IH]; intros w; [repeat split |].
  cbn [for_of]. cbn zeta. rewrite exec_bind.
  destruct (IH (exec (setOpen u (value (Some itemIndex));;
                      call (onVisibilityChange true)) w)) as (H1 & H2 & H3).
  cbn zeta in H1, H2, H3. rewrite H1, H2, H3. repeat split.
Qed.

(** X3. Clicking the element of the k-th registration of a render, when
    the click is not default-prevented, opens every subscribed viewer on
    that very item: for a viewer that had rendered and was not already
    open at k, once it has rendered again [useLightboxState] reports
    index k, the rebuilt list and, as current item, the registered item,
    and [LightboxView] passes [defaultIndex = k], [open = true] and the
    rebuilt list. *)
Theorem click_opens_on_the_clicked_item
    (regs : list Registration) (w0 : World) (k : nat)
    (item : JsValue) (onClick : option (SyntheticEvent -> SyntheticEvent))
    (e : SyntheticEvent) (v : nat)
    (Hreg : nth_error regs k = Some (item, onClick))
    (Hnot_prevented : defaultPrevented (after_prop onClick e) = false)
    (Hsubscribed : In v (setOpens w0))
    (Hrendered : context_isOpen w0 v = isOpen w0 v)
    (Hchanges : isOpen w0 v <> Some (Z.of_nat k)) :
  let handlers := fst (fst (render regs w0)) in
  let clicked := exec (dispatch handlers (ItemClick k e)) (exec (render regs) w0) in
  let w := exec (LightboxView_render v) clicked in
  useLightboxState w v = mkState (map fst regs) item (Some (Z.of_nat k)) /\
  LightboxView true w v = Some (mkProps (map fst regs) (Some (Z.of_nat k)) true).
Proof.
  intros handlers clicked w.
  assert (Hitems : items_current (exec (render regs) w0) = map fst regs)
    by (unfold exec; rewrite render_run; reflexivity).
  assert (Hh : nth_error handlers k = Some (onClick_handler (Z.of_nat k) onClick))
    by (subst handlers; rewrite render_run;
        apply (handlers_from_nth regs 0 k item onClick Hreg)).
  assert (Hitem : index_array (map fst regs) (Z.of_nat k) = item).
  { apply index_array_nth. rewrite nth_error_map.
    unfold Registration in *. rewrite Hreg. reflexivity. }
  assert (Hc : isOpen clicked v = Some (Z.of_nat k) /\
               items_current clicked = map fst regs /\
               context_isOpen clicked v = isOpen w0 v).
  { subst clicked. cbn [dispatch]. rewrite Hh.
    destruct (onClick_handler_run (Z.of_nat k) onClick e
                (exec (render regs) w0) Hnot_prevented) as [-> _].
    assert (Hs : setOpens (exec (render regs) w0) = setOpens w0)
      by (unfold exec; rewrite render_run; reflexivity).
    rewrite Hs.
    destruct (broadcast_frame (Z.of_nat k) (setOpens w0) (exec (render regs) w0))
      as (H1 & _ & H3).
    cbn zeta in H1, H3. rewrite H1, H3, Hitems. split; [| split].
    - rewrite broadcast_isOpen.
      assert (Hex : existsb (Nat.eqb v) (setOpens w0) = true)
        by (apply existsb_exists; exists v; split;
            [exact Hsubscribed | apply Nat.eqb_refl]).
      now rewrite Hex.
    - reflexivity.
    - unfold exec. rewrite render_run. cbn. exact Hrendered. }
  destruct Hc as (Hopen & Hlist & Hdep).
  assert (Hw : isOpen w v = Some (Z.of_nat k) /\ items_current w = map fst regs /\
               context_items w v = map fst regs).
  { subst w. unfold exec, LightboxView_render.
    destruct (option_Z_eqb (isOpen clicked v) (context_isOpen clicked v)) eqn:E.
    - apply option_Z_eqb_eq in E. congruence.
    - cbn. rewrite update_same. repeat split; assumption. }
  destruct Hw as (Ho & Hl & Hcx).
  unfold useLightboxState, LightboxView. rewrite Ho, Hl, Hcx, Hitem. cbn.
  split; reflexivity.
Qed.

Lemma click_opens_on_the_clicked_item_witness :
  let regs := [(JsObject 0, None); (JsString "b", None); (JsObject 2, None)]
              : list Registration in
  let e := mkEvent "" false false in
  let handlers := fst (fst (render regs one_viewer)) in
  let clicked := exec (dispatch handlers (ItemClick 1 e))
                      (exec (render regs) one_viewer) in
  (nth_error regs 1 = Some (JsString "b", None) /\
   defaultPrevented (after_prop None e) = false /\
   In 0%nat (setOpens one_viewer) /\
   context_isOpen one_viewer 0%nat = isOpen one_viewer 0%nat /\
   isOpen one_viewer 0%nat <> Some 1) /\
  currentItem (useLightboxState (exec (LightboxView_render 0) clicked) 0%nat)
  = JsString "b".
Proof.
  split; [repeat split; try reflexivity; [now left | discriminate] |].
  exact (f_equal currentItem
           (proj1 (click_opens_on_the_clicked_item
                     [(JsObject 0, None); (JsString "b", None); (JsObject 2, None)]
                     one_viewer 1 (JsString "b") None (mkEvent "" false false) 0%nat
                     eq_refl eq_refl (or_introl eq_refl) eq_refl
                     ltac:(discriminate)))).
Defined.

(** X4. A click that the consumer's own handler default-prevents opens
    nothing: the state is untouched, no viewer's setter is called and no
    visibility notification is sent. *)
Theorem prevented_click_opens_nothing
    (itemIndex : Z) (f : SyntheticEvent -> SyntheticEvent)
    (e : SyntheticEvent) (w : World)
    (Hprevented : defaultPrevented (f e) = true) :
  exec (onClick_handler itemIndex (Some f) e) w = w /\
  trace (onClick_handler itemIndex (Some f) e) w = [props_onClick] /\
  count is_setOpen (trace (onClick_handler itemIndex (Some f) e) w) = 0%nat /\
  count (is_onVisibilityChange true)
        (trace (onClick_handler itemIndex (Some f) e) w) = 0%nat.
Proof.
  unfold exec, trace.
  rewrite (onClick_handler_prevented itemIndex (Some f) e w Hprevented).
  repeat split.
Qed.

Lemma prevented_click_opens_nothing_witness :
  let f := fun e => mkEvent (key e) true (target_is_currentTarget e) in
  let e := mkEvent "" false false in
  defaultPrevented (f e) = true /\
  exec (onClick_handler 2 (Some f) e) one_viewer = one_viewer.
Proof.
  split; [reflexivity |].
  exact (proj1 (prevented_click_opens_nothing 2
                  (fun e => mkEvent (key e) true (target_is_currentTarget e))
                  (mkEvent "" false false) one_viewer eq_refl)).
Defined.

(** ** The subscriber set *)

Lemma mount_In (v u : nat) (w : World) :
  In u (setOpens (exec (LightboxView_mount v) w)) <-> u = v \/ In u (setOpens w).
Proof.
  unfold LightboxView_mount, exec. cbn.
  destruct (existsb (Nat.eqb v) (setOpens w)) eqn:E.
  - split; [now right | intros [-> | H]; [| exact H]].
    apply existsb_exists in E. destruct E as [a [Ha Hav]].
    apply Nat.eqb_eq in Hav. now subst a.
  - rewrite in_app_iff. cbn. intuition.
Qed.

Lemma unmount_In (v u : nat) (w : World) :
  In u (setOpens (exec (LightboxView_unmount v) w)) <-> u <> v /\ In u (setOpens w).
Proof.
  unfold LightboxView_unmount, exec. cbn. rewrite filter_In, negb_true_iff, Nat.eqb_neq.
  tauto.
Qed.

Lemma mount_NoDup (v : nat) (w : World) :
  NoDup (setOpens w) -> NoDup (setOpens (exec (LightboxView_mount v) w)).
Proof.
  intros Hnd. unfold LightboxView_mount, exec. cbn.
  destruct (existsb (Nat.eqb v) (setOpens w)) eqn:E; [exact Hnd |].
  apply NoDup_app; [exact Hnd | repeat constructor; intros [] |].
  intros a Ha [Hav | []]. subst a.
  assert (existsb (Nat.eqb v) (setOpens w) = true)
    by (apply existsb_exists; exists v; split; [exact Ha | apply Nat.eqb_refl]).
  congruence.
Qed.

Lemma unmount_NoDup (v : nat) (w : World) :
  NoDup (setOpens w) -> NoDup (setOpens (exec (LightboxView_unmount v) w)).
Proof. intros Hnd. unfold LightboxView_unmount, exec. cbn. now apply NoDup_filter. Qed.

Lemma lifecycle_membership (ls : list Lifecycle) (w : World) (mounted : nat -> bool) :
  NoDup (setOpens w) ->
  (forall u, In u (setOpens w) <-> mounted u = true) ->
  let w' := exec (for_of ls lifecycle) w in
  NoDup (setOpens w') /\
  (forall u, In u (setOpens w') <-> mounted_after ls mounted u = true) /\
  isOpen w' = isOpen w /\ items_current w' = items_current w.
Proof.
  revert w mounted. induction ls as [| l rest IH]; intros w mounted Hnd Hin.
  - cbn. split; [exact Hnd | split; [exact Hin | split; reflexivity]].
  - cbn [for_of mounted_after]. rewrite exec_bind.
    destruct l as [v | v]; cbn [lifecycle].
    + destruct (IH (exec (LightboxView_mount v) w) (update mounted v true))
        as (H1 & H2 & H3 & H4).
      * now apply mount_NoDup.
      * intros u. rewrite mount_In, Hin. unfold update.
        destruct (Nat.eqb u v) eqn:E;
          [apply Nat.eqb_eq in E | apply Nat.eqb_neq in E]; intuition.
      * split; [exact H1 | split; [exact H2 | split; [exact H3 | exact H4]]].
    + destruct (IH (exec (LightboxView_unmount v) w) (update mounted v false))
        as (H1 & H2 & H3 & H4).
      * now apply unmount_NoDup.
      * intros u. rewrite unmount_In, Hin. unfold update.
        destruct (Nat.eqb u v) eqn:E;
          [apply Nat.eqb_eq in E | apply Nat.eqb_neq in E]; intuition congruence.
      * split; [exact H1 | split; [exact H2 | split; [exact H3 | exact H4]]].
Qed.

(** X5. The subscriber set behaves as a set of the mounted viewers: after
    any sequence of mounts and unmounts starting with no subscriber, a
    click that is not default-prevented sets the index of exactly the
    viewers whose last step was a mount (each once, however often it was
    mounted), sends one notification per such viewer, and leaves every
    other viewer's index as it was. *)
Theorem click_reaches_exactly_the_mounted_viewers
    (ls : list Lifecycle) (w0 : World) (itemIndex : Z)
    (onClick : option (SyntheticEvent -> SyntheticEvent)) (e : SyntheticEvent)
    (Hempty : setOpens w0 = [])
    (Hnot_prevented : defaultPrevented (after_prop onClick e) = false) :
  let w := exec (for_of ls lifecycle) w0 in
  let w' := exec (onClick_handler itemIndex onClick e) w in
  let calls := trace (onClick_handler itemIndex onClick e) w in
  NoDup (setOpens w) /\
  (forall v, In v (setOpens w) <-> mounted_after ls (fun _ => false) v = true) /\
  (forall v, mounted_after ls (fun _ => false) v = true ->
             isOpen w' v = Some itemIndex) /\
  (forall v, mounted_after ls (fun _ => false) v = false ->
             isOpen w' v = isOpen w0 v) /\
  count (is_onVisibilityChange true) calls = List.length (setOpens w) /\
  count is_setOpen calls = List.length (setOpens w).
Proof.
  intros w w' calls.
  destruct (lifecycle_membership ls w0 (fun _ => false)) as (Hnd & Hin & Hopen & _).
  { rewrite Hempty. constructor. }
  { intros u. rewrite Hempty. cbn. split; [tauto | discriminate]. }
  fold w in Hnd, Hin, Hopen.
  destruct (onClick_handler_run itemIndex onClick e w Hnot_prevented) as [He Ht].
  subst w' calls. rewrite He, Ht, broadcast_trace.
  split; [exact Hnd |]. split; [exact Hin |].
  assert (Hex : forall v, existsb (Nat.eqb v) (setOpens w)
                          = mounted_after ls (fun _ => false) v).
  { intros v. apply eq_true_iff_eq. rewrite <- Hin, existsb_exists. split.
    - intros [a [Ha Hav]]. apply Nat.eqb_eq in Hav. now subst a.
    - intros Hv. exists v. split; [exact Hv | apply Nat.eqb_refl]. }
  split; [| split; [| split]].
  - intros v Hv. now rewrite broadcast_isOpen, Hex, Hv.
  - intros v Hv. now rewrite broadcast_isOpen, Hex, Hv, Hopen.
  - rewrite count_app, broadcast_notifications. destruct onClick; reflexivity.
  - rewrite count_app.
    assert (Hc : forall l, count is_setOpen
              (flat_map (fun v => [setOpen_call v (Some itemIndex);
                                   onVisibilityChange true]) l) = List.length l).
    { induction l as [| a l IH]; [reflexivity |].
      cbn [flat_map]. rewrite count_app, IH. reflexivity. }
    rewrite Hc. destruct onClick; reflexivity.
Qed.

Lemma click_reaches_exactly_the_mounted_viewers_witness :
  let w0 := mkWorld [JsObject 0] [] (fun _ => None) (fun _ => None) (fun _ => 0%Q) in
  let ls := [Mount 1; Mount 2; Mount 1; Unmount 2] in
  let e := mkEvent "" false false in
  let w := exec (for_of ls lifecycle) w0 in
  (setOpens w0 = [] /\ defaultPrevented (after_prop None e) = false) /\
  count (is_onVisibilityChange true) (trace (onClick_handler 0 None e) w)
  = List.length (setOpens w).
Proof.
  split; [split; reflexivity |].
  pose proof (click_reaches_exactly_the_mounted_viewers
                [Mount 1; Mount 2; Mount 1; Unmount 2]
                (mkWorld [JsObject 0] [] (fun _ => None) (fun _ => None)
                         (fun _ => 0%Q))
                0 None (mkEvent "" false false) eq_refl eq_refl) as H.
  exact (proj1 (proj2 (proj2 (proj2 (proj2 H))))).
Defined.

(** ** [Lightbox.Root]: the other keys and the closing paths *)

Lemma clamped_of_max (items : list JsValue) (n : Z) :
  clamped items (Some (Z.max n 0))
  = Some (Z.max 0 (Z.min (Z.max n 0) (length_of items - 1))).
Proof.
  unfold clamped. pose proof (length_of_nonneg items).
  destruct (Z.max n 0 =? 0) eqn:E; [| reflexivity].
  apply Z.eqb_eq in E. rewrite E. f_equal. lia.
Qed.

(** X6. The Escape key on an open viewer, when not default-prevented,
    calls [$onClose], then closes: the index becomes [null], one
    visibility-changed(false) notification is sent, nothing is loaded,
    and the viewer and its viewport render nothing afterwards. *)
Theorem Root_Escape_closes
    (w : World) (v : nat) (currentIndex : Z)
    (onKeyDown : option (SyntheticEvent -> SyntheticEvent)) (e : SyntheticEvent)
    (Hopen : isOpen w v = Some currentIndex)
    (Hkey : key (after_prop onKeyDown e) = "Escape"%string)
    (Hnot_prevented : defaultPrevented (after_prop onKeyDown e) = false) :
  let w' := exec (Root_onKeydown v onKeyDown e) w in
  trace (Root_onKeydown v onKeyDown e) w
  = prop_call props_onKeyDown onKeyDown ++
    [dollar_onClose; setOpen_call v None; onVisibilityChange false] /\
  isOpen w' v = None /\
  (forall u, u <> v -> isOpen w' u = isOpen w u) /\
  items_current w' = items_current w /\
  LightboxView true w' v = None /\
  Viewport w' v = None.
Proof.
  intros w'.
  assert (Hrun : Root_onKeydown v onKeyDown e w
                 = (tt, with_isOpen w v None,
                    prop_call props_onKeyDown onKeyDown ++
                    [dollar_onClose; setOpen_call v None; onVisibilityChange false])).
  { unfold Root_onKeydown, bind, get.
    rewrite call_prop_run, Hnot_prevented, Hopen, Hkey. reflexivity. }
  subst w'. unfold exec, trace. rewrite Hrun. cbn [fst snd].
  unfold LightboxView, Viewport. cbn. rewrite update_same.
  repeat split. intros u Hu. now apply update_other.
Qed.

Lemma Root_Escape_closes_witness :
  let w := mkWorld [JsObject 0; JsObject 1] [0%nat]
                   (fun _ => Some 1) (fun _ => Some 1000) (fun _ => 0%Q) in
  let e := mkEvent "Escape" false false in
  (isOpen w 0%nat = Some 1 /\ key (after_prop None e) = "Escape"%string /\
   defaultPrevented (after_prop None e) = false) /\
  isOpen (exec (Root_onKeydown 0 None e) w) 0%nat = None.
Proof.
  split; [repeat split; reflexivity |].
  exact (proj1 (proj2 (Root_Escape_closes
                  (mkWorld [JsObject 0; JsObject 1] [0%nat]
                           (fun _ => Some 1) (fun _ => Some 1000) (fun _ => 0%Q))
                  0%nat 1 None (mkEvent "Escape" false false)
                  eq_refl eq_refl eq_refl))).
Defined.

(** X7. The left-arrow key on an open viewer, when not default-prevented,
    never calls load-next and makes the single index update to
    [max(0, min(max(current - 1, 0), length - 1))]: for a valid current
    index this is [max(current - 1, 0)], so the first item stays. *)
Theorem Root_ArrowLeft_moves_back
    (w : World) (v : nat) (currentIndex : Z)
    (onKeyDown : option (SyntheticEvent -> SyntheticEvent)) (e : SyntheticEvent)
    (Hopen : isOpen w v = Some currentIndex)
    (Hkey : key (after_prop onKeyDown e) = "ArrowLeft"%string)
    (Hnot_prevented : defaultPrevented (after_prop onKeyDown e) = false) :
  let len := length_of (items_current w) in
  let stored := Z.max 0 (Z.min (Z.max (currentIndex - 1) 0) (len - 1)) in
  let calls := trace (Root_onKeydown v onKeyDown e) w in
  calls = prop_call props_onKeyDown onKeyDown ++ [setOpen_call v (Some stored)] /\
  count is_onLoadNext calls = 0%nat /\
  isOpen (exec (Root_onKeydown v onKeyDown e) w) v = Some stored /\
  (0 <= currentIndex < len -> stored = Z.max (currentIndex - 1) 0) /\
  (currentIndex = 0 -> 0 < len -> stored = 0).
Proof.
  intros len stored calls.
  assert (Hrun : Root_onKeydown v onKeyDown e w
                 = (tt, with_isOpen w v (Some stored),
                    prop_call props_onKeyDown onKeyDown
                      ++ [setOpen_call v (Some stored)])).
  { unfold Root_onKeydown, bind, get.
    rewrite call_prop_run, Hnot_prevented, Hopen, Hkey.
    cbn [String.eqb Ascii.eqb Bool.eqb when ret call].
    unfold setCurrentIndex. rewrite (setIndex_eq w v). unfold requested.
    rewrite clamped_of_max. reflexivity. }
  subst calls. unfold exec, trace. rewrite Hrun. cbn [fst snd].
  split; [reflexivity |]. split; [| split; [| split]].
  - rewrite count_app. destruct onKeyDown; reflexivity.
  - cbn. apply update_same.
  - intros Hvalid. subst stored. lia.
  - intros H0 Hlen. subst stored. lia.
Qed.

Lemma Root_ArrowLeft_moves_back_witness :
  let w := mkWorld [JsObject 0; JsObject 1; JsObject 2] [0%nat]
                   (fun _ => Some 2) (fun _ => Some 1000) (fun _ => 0%Q) in
  let e := mkEvent "ArrowLeft" false false in
  (isOpen w 0%nat = Some 2 /\ key (after_prop None e) = "ArrowLeft"%string /\
   defaultPrevented (after_prop None e) = false) /\
  trace (Root_onKeydown 0 None e) w = [setOpen_call 0 (Some 1)].
Proof.
  split; [repeat split; reflexivity |].
  exact (proj1 (Root_ArrowLeft_moves_back
                  (mkWorld [JsObject 0; JsObject 1; JsObject 2] [0%nat]
                           (fun _ => Some 2) (fun _ => Some 1000) (fun _ => 0%Q))
                  0%nat 2 None (mkEvent "ArrowLeft" false false)
                  eq_refl eq_refl eq_refl)).
Defined.

(** X8. The root's key handler is inert outside its three keys: when the
    consumer's handler default-prevented the event, when the viewer is
    closed, or when the key is none of Escape, ArrowRight and ArrowLeft,
    it changes nothing and calls nothing but the consumer's handler. *)
Theorem Root_onKeydown_inert
    (w : World) (v : nat)
    (onKeyDown : option (SyntheticEvent -> SyntheticEvent)) (e : SyntheticEvent)
    (Hinert : defaultPrevented (after_prop onKeyDown e) = true \/
              isOpen w v = None \/
              navigation_key (key (after_prop onKeyDown e)) = false) :
  exec (Root_onKeydown v onKeyDown e) w = w /\
  trace (Root_onKeydown v onKeyDown e) w = prop_call props_onKeyDown onKeyDown.
Proof.
  assert (Hrun : Root_onKeydown v onKeyDown e w
                 = (tt, w, prop_call props_onKeyDown onKeyDown)).
  { unfold Root_onKeydown, bind, get. rewrite call_prop_run.
    destruct (defaultPrevented (after_prop onKeyDown e)) eqn:Hp;
      [cbn; now rewrite app_nil_r |].
    destruct (isOpen w v) as [currentIndex |] eqn:Ho;
      [| cbn; now rewrite app_nil_r].
    destruct Hinert as [H | [H | H]]; try discriminate.
    unfold navigation_key in H.
    apply orb_false_iff in H as [H Hl]. apply orb_false_iff in H as [He Hr].
    rewrite He, Hr, Hl. cbn. now rewrite app_nil_r. }
  unfold exec, trace. rewrite Hrun. split; reflexivity.
Qed.

Lemma Root_onKeydown_inert_witness :
  let w := mkWorld [JsObject 0; JsObject 1] [0%nat]
                   (fun _ => Some 1) (fun _ => Some 1000) (fun _ => 0%Q) in
  let e := mkEvent "Tab" false false in
  navigation_key (key (after_prop None e)) = false /\
  exec (Root_onKeydown 0 None e) w = w.
Proof.
  split; [reflexivity |].
  exact (proj1 (Root_onKeydown_inert
                  (mkWorld [JsObject 0; JsObject 1] [0%nat]
                           (fun _ => Some 1) (fun _ => Some 1000) (fun _ => 0%Q))
                  0%nat None (mkEvent "Tab" false false)
                  (or_intror (or_intror eq_refl)))).
Defined.


(** ** Visibility changes and their notifications *)






(** ** [Lightbox.Item]: while the pointer is down, and the slot style *)

(** X10. While the pointer is down a drag never navigates: whatever the
    initial position, the movement and the root, the handler changes no
    index, calls neither load-next nor an index setter, and leaves the
    offset as it was (drag cancelled, or viewer closed) or sets it to the
    movement. *)
Theorem Item_pointer_down_never_navigates
    (w : World) (v : nat) (g : DragState)
    (Hdown : down g = true) :
  let w' := exec (Item_onDrag v g) w in
  let calls := trace (Item_onDrag v g) w in
  isOpen w' = isOpen w /\
  items_current w' = items_current w /\
  count is_onLoadNext calls = 0%nat /\
  count is_setOpen calls = 0%nat /\
  ((w' = w /\ (calls = [] \/ calls = [cancel])) \/
   (offsetX w' v = mx g /\ calls = [setOffset_call v (mx g)])).
Proof.
  intros w' calls. subst w' calls. unfold exec, trace, Item_onDrag, bind, get.
  destruct (isOpen w v) as [c |]; [| cbn; repeat split; left; split; auto].
  destruct (started_off_edge g (rootRef_current w v));
    [cbn; repeat split; left; split; auto |].
  rewrite Hdown. cbn. rewrite update_same. repeat split. now right.
Qed.

Lemma Item_pointer_down_never_navigates_witness :
  let w := mkWorld [JsObject 0; JsObject 1; JsObject 2] [0%nat]
                   (fun _ => Some 1) (fun _ => None) (fun _ => 0%Q) in
  let g := mkDrag true 400 (-1) 500 in
  down g = true /\ isOpen (exec (Item_onDrag 0 g) w) = isOpen w.
Proof.
  split; [reflexivity |].
  exact (proj1 (Item_pointer_down_never_navigates
                  (mkWorld [JsObject 0; JsObject 1; JsObject 2] [0%nat]
                           (fun _ => Some 1) (fun _ => None) (fun _ => 0%Q))
                  0%nat (mkDrag true 400 (-1) 500) eq_refl)).
Defined.

(** X11. The slots that the viewport mounts form a filmstrip around the
    current one: the slot of index i is placed at (i - currentIndex) *
    100 percent, that is at -100, 0 or 100, and at 0 exactly for the
    current index; all slots share the pixel offset of the viewport, and
    the transition is animated exactly when that offset is 0. *)
Theorem mounted_slots_form_a_filmstrip
    (w : World) (v : nat) (currentIndex i : Z) (children : list (option Z))
    (Hopen : isOpen w v = Some currentIndex)
    (Hview : Viewport w v = Some children)
    (Hslot : In i (mounted_slots children)) :
  exists st,
    Item_style i w v = Some st /\
    net_percent st = (i - currentIndex) * 100 /\
    (net_percent st = -100 \/ net_percent st = 0 \/ net_percent st = 100) /\
    (net_percent st = 0 <-> i = currentIndex) /\
    translateX_px st = offsetX w v /\
    (transition st = "transform 0.3s ease-out"%string <-> (offsetX w v == 0)%Q) /\
    (transition st = "none"%string <-> ~ (offsetX w v == 0)%Q).
Proof.
  unfold Viewport in Hview. rewrite Hopen in Hview. injection Hview as <-.
  rewrite mounted_slots_children in Hslot.
  apply filter_In in Hslot. destruct Hslot as [Hin _].
  apply visibleIndices_In in Hin. destruct Hin as [Hwin _].
  unfold Item_style. rewrite Hopen. eexists. split; [reflexivity |].
  unfold net_percent. cbn [left_percent translateX_percent translateX_px transition].
  split; [lia |]. split; [lia |]. split; [lia |]. split; [reflexivity |].
  destruct (Qeq_bool (offsetX w v) 0) eqn:E.
  - apply Qeq_bool_iff in E. split; [tauto |]. split; [discriminate | tauto].
  - apply Qeq_bool_neq in E. split; [split; [discriminate | tauto] | tauto].
Qed.

Lemma mounted_slots_form_a_filmstrip_witness :
  let w := mkWorld [JsObject 0; JsObject 1; JsObject 2] [0%nat]
                   (fun _ => Some 1) (fun _ => Some 1000) (fun _ => 0%Q) in
  (isOpen w 0%nat = Some 1 /\
   Viewport w 0%nat = Some [Some 0; Some 1; Some 2] /\
   In 2 (mounted_slots [Some 0; Some 1; Some 2])) /\
  exists st, Item_style 2 w 0%nat = Some st /\ net_percent st = (2 - 1) * 100.
Proof.
  split; [repeat split; try reflexivity; cbn; tauto |].
  destruct (mounted_slots_form_a_filmstrip
              (mkWorld [JsObject 0; JsObject 1; JsObject 2] [0%nat]
                       (fun _ => Some 1) (fun _ => Some 1000) (fun _ => 0%Q))
              0%nat 1 2 [Some 0; Some 1; Some 2] eq_refl eq_refl
              (or_intror (or_intror (or_introl eq_refl)))) as (st & Hs & Hn & _).
  exists st. split; [exact Hs | exact Hn].
Defined.

(** X12. After a release on an open viewer the strip settles, unless
    the release waits for a load-next promise that does not resolve: if
    the movement is at most 100, or the new index is below the last index
    of the context's list (load-next is not called), or the promise of
    load-next resolves, then the viewer is still open, the pixel offset
    of every slot is 0 and the transition is animated. *)
Theorem release_settles_the_strip
    (w : World) (v : nat) (currentIndex index : Z) (g : DragState)
    (Hopen : isOpen w v = Some currentIndex)
    (Hrelease : down g = false)
    (Hresumes : (Qabs (mx g) <= 100)%Q \/
                currentIndex + release_step g < length_of (context_items w v) - 1 \/
                onLoadNext_settles w = resolved) :
  let w' := exec (Item_onDrag v g) w in
  exists st,
    Item_style index w' v = Some st /\
    translateX_px st = 0%Q /\
    transition st = "transform 0.3s ease-out"%string.
Proof.
  intros w'. subst w'.
  assert (Hw : exists n w1, exec (Item_onDrag v g) w = with_offsetX w1 v 0 /\
                            isOpen w1 v = Some n).
  { destruct (Qlt_le_dec 100 (Qabs (mx g))) as [Hfar | Hnear]; unfold exec.
    - rewrite (Item_onDrag_release_far w v currentIndex g Hopen Hrelease Hfar).
      destruct (_ >=? _) eqn:E.
      + destruct Hresumes as [H | [H | H]].
        * exfalso. exact (Qlt_not_le _ _ Hfar H).
        * apply Z.geb_le in E. lia.
        * rewrite H. cbn [fst snd]. eexists. eexists. split; [reflexivity |].
          cbn. apply update_same.
      + cbn [fst snd]. eexists. eexists. split; [reflexivity |].
        cbn. apply update_same.
    - rewrite (Item_onDrag_release_near w v currentIndex g Hopen Hrelease Hnear).
      cbn [fst snd]. exists currentIndex, w. split; [reflexivity | exact Hopen]. }
  destruct Hw as (n & w1 & -> & Hn).
  unfold Item_style. cbn [isOpen with_offsetX offsetX]. rewrite Hn, update_same.
  eexists. split; [reflexivity |]. split; reflexivity.
Qed.

Lemma release_settles_the_strip_witness :
  let w := mkWorld [JsObject 0; JsObject 1; JsObject 2] [0%nat]
                   (fun _ => Some 1) (fun _ => Some 1000) (fun _ => 37%Q) in
  let g := mkDrag false 37 1 100 in
  (isOpen w 0%nat = Some 1 /\ down g = false /\ (Qabs (mx g) <= 100)%Q) /\
  exists st, Item_style 1 (exec (Item_onDrag 0 g) w) 0%nat = Some st /\
             translateX_px st = 0%Q.
Proof.
  assert (Hnear : (Qabs 37 <= 100)%Q) by discriminate.
  split; [repeat split; try reflexivity; exact Hnear |].
  destruct (release_settles_the_strip
              (mkWorld [JsObject 0; JsObject 1; JsObject 2] [0%nat]
                       (fun _ => Some 1) (fun _ => Some 1000) (fun _ => 37%Q))
              0%nat 1 1 (mkDrag false 37 1 100) eq_refl eq_refl
              (or_introl Hnear))
    as (st & Hs & Hp & _).
  exists st. split; [exact Hs | exact Hp].
Defined.

(** ** [Lightbox.Pinchable]: the zoomed state, the zoom report, opacity *)

Lemma Qgtb_eq_false_of_gt (a : Q) : (1 < a)%Q -> Qeq_bool a 1 = false.
Proof.
  intros H. destruct (Qeq_bool a 1) eqn:E; [| reflexivity].
  apply Qeq_bool_iff in E. rewrite E in H. now apply Qlt_irrefl in H.
Qed.

Lemma Pinchable_onDrag_zoomed (g : PinchDrag) (st : PinchableState) :
  (1 < scale (transform st))%Q ->
  Pinchable_onDrag g st
  = if pinching g
    then (tt, st, [stopPropagation; cancel])
    else (tt,
          mkPinchable (mkTransform (scale (transform st)) (ox g) (oy g))
                      (swipeOffsetY st),
          [stopPropagation;
           setTransform_call (mkTransform (scale (transform st)) (ox g) (oy g))]).
Proof.
  intros Hz.
  unfold Pinchable_onDrag, bind, get, when. cbn [fst snd].
  rewrite (Qgtb_eq_false_of_gt _ Hz). cbn [negb].
  destruct (pinching g); [reflexivity |].
  apply Qgtb_lt in Hz. rewrite Hz. reflexivity.
Qed.

(** X13. While the wrapper is zoomed (scale > 1) nothing closes the
    viewer and nothing moves the swipe offset: no drag, pinch, wheel,
    click, double click or key event calls the close-intercept callback
    or changes the swipe offset; a drag outside a pinch pans instead,
    stopping the propagation and storing the gesture offset with the
    scale unchanged. *)
Theorem Pinchable_zoomed_never_closes
    (st : PinchableState) (ev : PinchableEvent)
    (Hzoomed : (1 < scale (transform st))%Q) :
  let st' := exec (Pinchable_handle ev) st in
  let calls := trace (Pinchable_handle ev) st in
  count is_onRequestClose calls = 0%nat /\
  swipeOffsetY st' = swipeOffsetY st /\
  (forall g, ev = Drag g -> pinching g = false ->
     transform st' = mkTransform (scale (transform st)) (ox g) (oy g) /\
     calls = [stopPropagation; setTransform_call (transform st')]).
Proof.
  intros st' calls. subst st' calls.
  pose proof (Qgtb_eq_false_of_gt _ Hzoomed) as Hne.
  destruct ev as [g | s | c | e | e | e]; cbn [Pinchable_handle]; unfold exec, trace.
  - rewrite (Pinchable_onDrag_zoomed g st Hzoomed).
    destruct (pinching g) eqn:Hp; cbn [fst snd swipeOffsetY transform];
      (split; [reflexivity |]); (split; [reflexivity |]);
      intros g' Hg Hp'; injection Hg as <-; [congruence |].
    split; reflexivity.
  - rewrite Pinchable_onPinch_run. cbn [fst snd swipeOffsetY].
    split; [reflexivity | split; [reflexivity | intros g' Hg; discriminate]].
  - destruct c; cbn;
      (split; [reflexivity | split; [reflexivity | intros g' Hg; discriminate]]).
  - unfold Pinchable_handleClick, bind, get. cbn [fst snd]. rewrite Hne. cbn.
    split; [reflexivity | split; [reflexivity | intros g' Hg; discriminate]].
  - rewrite Pinchable_handleDoubleClick_run. cbn [fst snd swipeOffsetY].
    split; [reflexivity | split; [reflexivity | intros g' Hg; discriminate]].
  - unfold Pinchable_handleKeyDown, bind, get, when. cbn [fst snd]. rewrite Hne.
    destruct (String.eqb (key e) "ArrowLeft" || String.eqb (key e) "ArrowRight");
      cbn;
      (split; [reflexivity | split; [reflexivity | intros g' Hg; discriminate]]).
Qed.

Lemma Pinchable_zoomed_never_closes_witness :
  let st := mkPinchable (mkTransform 2.5 0 0) 0 in
  let ev := Drag (mkPinchDrag 30 400 false 400 false) in
  (1 < scale (transform st))%Q /\
  count is_onRequestClose (trace (Pinchable_handle ev) st) = 0%nat.
Proof.
  split; [reflexivity |].
  exact (proj1 (Pinchable_zoomed_never_closes
                  (mkPinchable (mkTransform 2.5 0 0) 0)
                  (Drag (mkPinchDrag 30 400 false 400 false)) eq_refl)).
Defined.

(** X14. A pinch reports the zoom state of the scale it stores: the
    zoom-change callback gets [true] exactly when the incoming scale
    exceeds 1; an incoming scale within [[1, 4]] is stored as it is, one
    at most 1 leaves the wrapper unzoomed (scale == 1), and one of 4 or
    more stores the maximum 4. *)
Theorem Pinchable_onPinch_reports_zoom (st : PinchableState) (s : Q) :
  let st' := exec (Pinchable_onPinch s) st in
  (exists zoomed,
     trace (Pinchable_onPinch s) st
     = [preventDefault; setTransform_call (transform st'); onZoomChange zoomed] /\
     (zoomed = true <-> (1 < s)%Q) /\
     (zoomed = true <-> (1 < scale (transform st'))%Q)) /\
  ((1 <= s <= 4)%Q -> (scale (transform st') == s)%Q) /\
  ((s <= 1)%Q -> (scale (transform st') == 1)%Q) /\
  ((4 <= s)%Q -> (scale (transform st') == 4)%Q) /\
  swipeOffsetY st' = swipeOffsetY st.
Proof.
  intros st'. subst st'. unfold exec, trace. rewrite Pinchable_onPinch_run.
  cbn [fst snd transform scale swipeOffsetY].
  split; [| split; [| split; [| split]]].
  - exists (Qgtb (Qmax 1 (Qmin s 4)) 1). split; [reflexivity |].
    rewrite Qgtb_lt. split; [| reflexivity].
    rewrite Q.max_lt_iff, Q.min_glb_lt_iff.
    split.
    + intros [H | [H _]]; [now apply Qlt_irrefl in H | exact H].
    + intros H. right. split; [exact H | reflexivity].
  - intros [H1 H4]. rewrite (Q.min_l s 4 H4). now apply Q.max_r.
  - intros H1. apply Q.max_l. apply (Qle_trans _ s); [apply Q.le_min_l | exact H1].
  - intros H4. rewrite (Q.min_r s 4 H4). apply Q.max_r. discriminate.
  - reflexivity.
Qed.

Lemma Pinchable_handle_swipe_nonneg (ev : PinchableEvent) (st : PinchableState) :
  swipe_nonneg st -> swipe_nonneg (exec (Pinchable_handle ev) st).
Proof.
  unfold swipe_nonneg. intros Hst.
  destruct ev as [g | s | c | e | e | e]; cbn [Pinchable_handle].
  - unfold Pinchable_onDrag, exec, bind, get, when. cbn [fst snd].
    destruct (negb (Qeq_bool (scale (transform st)) 1)); cbn;
      destruct (pinching g); cbn; try exact Hst;
      destruct (Qgtb (scale (transform st)) 1); cbn; try exact Hst;
      destruct (drag_down g); cbn; try apply Q.le_max_l;
      destruct (Qgtb (my g) 100); cbn; apply Qle_refl.
  - unfold exec. rewrite Pinchable_onPinch_run. exact Hst.
  - destruct c; exact Hst.
  - unfold Pinchable_handleClick, exec, bind, get, when. cbn [fst snd].
    destruct (negb (Qeq_bool (scale (transform st)) 1)); cbn; [exact Hst |].
    destruct (target_is_currentTarget e); exact Hst.
  - unfold exec. rewrite Pinchable_handleDoubleClick_run. exact Hst.
  - unfold Pinchable_handleKeyDown, exec, bind, get, when. cbn [fst snd].
    destruct (Qeq_bool (scale (transform st)) 1); cbn; [exact Hst |].
    destruct (String.eqb (key e) "ArrowLeft" || String.eqb (key e) "ArrowRight");
      exact Hst.
Qed.

Lemma opacity_bounds (st : PinchableState) :
  swipe_nonneg st -> (0.5 <= Pinchable_opacity st <= 1)%Q.
Proof.
  unfold swipe_nonneg, Pinchable_opacity. intros Hst.
  destruct (Qeq_bool (scale (transform st)) 1); [| split; discriminate].
  split; [apply Q.le_max_l |].
  apply Q.max_lub; [discriminate |].
  assert (H : (0 <= swipeOffsetY st / 300)%Q)
    by (apply Qle_shift_div_l; [reflexivity | now rewrite Qmult_0_l]).
  lra.
Qed.

(** X15. After every sequence of events on a freshly mounted wrapper the
    swipe offset is never negative and the opacity of the wrapper is
    between 0.5 and 1; it is exactly 1 whenever the wrapper is zoomed. *)
Theorem Pinchable_opacity_bounds (evs : list PinchableEvent) :
  let st := exec (Pinchable_run evs) Pinchable_initial in
  (0 <= swipeOffsetY st)%Q /\
  (0.5 <= Pinchable_opacity st <= 1)%Q /\
  (~ (scale (transform st) == 1)%Q -> Pinchable_opacity st = 1%Q).
Proof.
  intros st.
  assert (Hst : swipe_nonneg st).
  { subst st. unfold Pinchable_run.
    assert (H0 : swipe_nonneg Pinchable_initial) by (cbn; discriminate).
    revert H0. generalize Pinchable_initial.
    induction evs as [| ev rest IH]; intros s0 H0; [exact H0 |].
    cbn [for_of]. rewrite exec_bind. now apply IH, Pinchable_handle_swipe_nonneg. }
  split; [exact Hst |]. split; [now apply opacity_bounds |].
  intros Hz. unfold Pinchable_opacity.
  destruct (Qeq_bool (scale (transform st)) 1) eqn:E; [| reflexivity].
  apply Qeq_bool_iff in E. contradiction.
Qed.

(** A click on an unzoomed wrapper asks to close exactly when the
    wrapper itself is the target, once, and changes no state; a click on
    a child of the wrapper does nothing. *)
Lemma Pinchable_click_closes_on_wrapper_only
    (st : PinchableState) (e : SyntheticEvent)
    (Hunzoomed : (scale (transform st) == 1)%Q) :
  exec (Pinchable_handleClick e) st = st /\
  trace (Pinchable_handleClick e) st
  = (if target_is_currentTarget e then [onRequestClose] else []) /\
  (count is_onRequestClose (trace (Pinchable_handleClick e) st) = 1%nat
   <-> target_is_currentTarget e = true).
Proof.
  apply Qeq_bool_iff in Hunzoomed.
  unfold Pinchable_handleClick, exec, trace, bind, get, when. cbn [fst snd].
  rewrite Hunzoomed. cbn.
  destruct (target_is_currentTarget e); cbn; repeat split; auto; discriminate.
Qed.

Lemma Pinchable_click_closes_on_wrapper_only_witness :
  let e := mkEvent "" false true in
  (scale (transform Pinchable_initial) == 1)%Q /\
  trace (Pinchable_handleClick e) Pinchable_initial = [onRequestClose].
Proof.
  split; [reflexivity |].
  exact (proj1 (proj2 (Pinchable_click_closes_on_wrapper_only
                  Pinchable_initial (mkEvent "" false true) (Qeq_refl 1)))).
Defined.

(** ** Key events from a zoomed wrapper *)

Lemma Pinchable_handleKeyDown_run (e : SyntheticEvent) (p : PinchableState) :
  Pinchable_handleKeyDown e p
  = (tt, p,
     if Qeq_bool (scale (transform p)) 1 then []
     else if String.eqb (key e) "ArrowLeft" || String.eqb (key e) "ArrowRight"
          then [stopPropagation] else []).
Proof.
  unfold Pinchable_handleKeyDown, bind, get, when. cbn [fst snd].
  destruct (Qeq_bool (scale (transform p)) 1); [reflexivity |].
  destruct (String.eqb (key e) "ArrowLeft" || String.eqb (key e) "ArrowRight");
    reflexivity.
Qed.

(** X16. For a key pressed inside a wrapper that is nested in the root:
    while the wrapper is zoomed, the arrow keys stop at the wrapper and
    change neither the current index nor anything else, and load nothing;
    in every other case (wrapper unzoomed, or any other key such as
    Escape) the event reaches the root and has exactly the effect of the
    root's key handler. *)
Theorem zoomed_arrow_keys_do_not_navigate
    (v : nat) (onKeyDown : option (SyntheticEvent -> SyntheticEvent))
    (e : SyntheticEvent) (w : World) (p : PinchableState) :
  let arrow := String.eqb (key e) "ArrowLeft" || String.eqb (key e) "ArrowRight" in
  let m := keydown_in_pinchable v onKeyDown e in
  (~ (scale (transform p) == 1)%Q -> arrow = true ->
   exec m (w, p) = (w, p) /\ trace m (w, p) = [stopPropagation]) /\
  ((scale (transform p) == 1)%Q \/ arrow = false ->
   exec m (w, p) = (exec (Root_onKeydown v onKeyDown e) w, p) /\
   trace m (w, p) = trace (Root_onKeydown v onKeyDown e) w).
Proof.
  intros arrow m. subst m. unfold exec, trace, keydown_in_pinchable.
  cbn [fst snd]. rewrite Pinchable_handleKeyDown_run. fold arrow.
  split.
  - intros Hz Ha. rewrite Ha.
    destruct (Qeq_bool (scale (transform p)) 1) eqn:E;
      [apply Qeq_bool_iff in E; contradiction |].
    cbn. split; reflexivity.
  - intros H.
    assert (Hnone : (if Qeq_bool (scale (transform p)) 1 then []
                     else if arrow then [stopPropagation] else []) = @nil Call).
    { destruct H as [H | H].
      - apply Qeq_bool_iff in H. now rewrite H.
      - rewrite H. now destruct (Qeq_bool (scale (transform p)) 1). }
    rewrite Hnone. cbn [existsb app].
    destruct (Root_onKeydown v onKeyDown e w) as [[[] w'] t]. split; reflexivity.
Qed.

Lemma zoomed_arrow_keys_do_not_navigate_witness :
  let w := mkWorld [JsObject 0; JsObject 1; JsObject 2] [0%nat]
                   (fun _ => Some 1) (fun _ => Some 1000) (fun _ => 0%Q) in
  let p := mkPinchable (mkTransform 2.5 0 0) 0 in
  let e := mkEvent "ArrowRight" false false in
  (~ (scale (transform p) == 1)%Q /\
   String.eqb (key e) "ArrowLeft" || String.eqb (key e) "ArrowRight" = true) /\
  exec (keydown_in_pinchable 0 None e) (w, p) = (w, p).
Proof.
  assert (Hz : ~ (2.5 == 1)%Q) by discriminate.
  split; [split; [exact Hz | reflexivity] |].
  exact (proj1 (proj1 (zoomed_arrow_keys_do_not_navigate 0%nat None
                  (mkEvent "ArrowRight" false false)
                  (mkWorld [JsObject 0; JsObject 1; JsObject 2] [0%nat]
                           (fun _ => Some 1) (fun _ => Some 1000) (fun _ => 0%Q))
                  (mkPinchable (mkTransform 2.5 0 0) 0)) Hz eq_refl)).
Defined.

(** ** The scroll lock of the root *)

Lemma Root_scroll_effect_then_cleanup (prevent : bool) (c : option Z) (d : Document) :
  exec (cleanup <- Root_scroll_effect prevent c ;; cleanup) d = d.
Proof. destruct d, prevent; reflexivity. Qed.

(** X17. The scroll lock is a round trip: whatever the successive values
    of the effect's dependencies, once every run has been cleaned up the
    body's overflow style is what it was before the root mounted. While
    an effect is in place, the style is "hidden" for an open viewer and
    empty for a closed one if scroll prevention is on, and untouched if
    it is off. *)
Theorem Root_scroll_lock_round_trip :
  (forall (deps : list (bool * option Z)) (d : Document),
     exec (Root_scroll_lifecycle deps) d = d) /\
  (forall (c : option Z) (d : Document),
     body_style_overflow (exec (Root_scroll_effect true c) d)
     = match c with Some _ => "hidden"%string | None => ""%string end) /\
  (forall (c : option Z) (d : Document),
     exec (Root_scroll_effect false c) d = d).
Proof.
  split; [| split].
  - intros deps. unfold Root_scroll_lifecycle.
    induction deps as [| [prevent c] rest IH]; intros d; [reflexivity |].
    cbn [for_of fst snd]. rewrite exec_bind, Root_scroll_effect_then_cleanup.
    apply IH.
  - intros c d. destruct c; reflexivity.
  - intros c d. destruct d. reflexivity.
Qed.

(** ** [useConcatRef] *)

Module ConcatRefFacts.
Import ConcatRef.

Lemma has_object_In (refs : list Ref) (id : nat) :
  has_object refs id = true <-> In (ref_object id) refs.
Proof.
  unfold has_object. rewrite existsb_exists. split.
  - intros [r [Hr Hid]]. destruct r as [| j ret | j]; try discriminate.
    apply Nat.eqb_eq in Hid. now subst j.
  - intros Hin. exists (ref_object id). split; [exact Hin | apply Nat.eqb_refl].
Qed.

Lemma attach_fold (el : nat) (refs : list Ref) (st : State) :
  let st' := fold_left (attach el) refs st in
  current st' = current st /\
  callback_calls st'
  = callback_calls st ++ map (fun id => (id, el)) (callbacks refs) /\
  cleanup_calls st' = cleanup_calls st /\
  (only_wrappers st -> only_wrappers st') /\
  (forall id, object_current st' id
              = if has_object refs id then Some el else object_current st id).
Proof.
  revert st. induction refs as [| r rest IH]; intros st.
  - cbn. rewrite app_nil_r. repeat split; auto.
  - cbn [fold_left]. destruct (IH (attach el st r)) as (H1 & H2 & H3 & H4 & H5).
    cbn zeta. rewrite H1, H2, H3.
    split; [| split; [| split; [| split]]].
    + destruct r; reflexivity.
    + destruct r; cbn; [reflexivity | now rewrite <- app_assoc | reflexivity].
    + destruct r; reflexivity.
    + intros Hst. apply H4. destruct r as [| id returns | id]; try exact Hst.
      intros f Hf. cbn in Hf. apply in_app_iff in Hf.
      destruct Hf as [Hf | [<- | []]]; [now apply Hst | eexists; reflexivity].
    + intros id. rewrite H5. unfold has_object. cbn [existsb].
      fold (has_object rest id).
      destruct (has_object rest id); [now rewrite orb_true_r |].
      rewrite orb_false_r. destruct r as [| j returns | j]; try reflexivity.
      cbn. unfold update. now rewrite Nat.eqb_sym.
Qed.

Lemma call_wrappers (fs : list Fn) (st : State) :
  (forall f, In f fs -> exists d, f = returning d) ->
  fold_left (fun s f => call_fn f s) fs st = st.
Proof.
  revert st. induction fs as [| f rest IH]; intros st Hfs; [reflexivity |].
  cbn [fold_left]. destruct (Hfs f (or_introl eq_refl)) as [d ->]. cbn.
  apply IH. intros g Hg. apply Hfs. now right.
Qed.

Lemma set_current_only_wrappers (refs : list Ref) (value : option nat) (st : State) :
  only_wrappers st -> only_wrappers (set_current refs value st).
Proof.
  intros Hst. destruct value as [el |]; cbn [set_current].
  - apply (proj1 (proj2 (proj2 (proj2 (attach_fold el refs _))))). exact Hst.
  - intros f [].
Qed.

Lemma assignments_only_wrappers (refs : list Ref) (values : list (option nat))
    (st : State) :
  only_wrappers st -> cleanup_calls st = [] ->
  only_wrappers (assignments refs values st) /\
  cleanup_calls (assignments refs values st) = [].
Proof.
  unfold assignments. revert st.
  induction values as [| value rest IH]; intros st Hst Hc; [now split |].
  cbn [fold_left]. apply IH.
  - now apply set_current_only_wrappers.
  - destruct value as [el |]; cbn [set_current].
    + now rewrite (proj1 (proj2 (proj2 (attach_fold el refs _)))).
    + rewrite call_wrappers by exact Hst. exact Hc.
Qed.

(** X18. Assigning an element to the merged ref hands it to every ref:
    reading the merged ref gives the element back, every ref object of
    the list then holds it, and every callback ref is called with it
    exactly once, in the order of the list; absent refs are skipped and
    no cleanup runs. *)
Theorem useConcatRef_attach_reaches_every_ref
    (refs : list Ref) (el : nat) (st : State) :
  let st' := set_current refs (Some el) st in
  get_current st' = Some el /\
  (forall id, In (ref_object id) refs -> object_current st' id = Some el) /\
  (forall id, ~ In (ref_object id) refs -> object_current st' id = object_current st id) /\
  callback_calls st'
  = callback_calls st ++ map (fun id => (id, el)) (callbacks refs) /\
  cleanup_calls st' = cleanup_calls st.
Proof.
  intros st'. subst st'. cbn [set_current]. unfold get_current.
  destruct (attach_fold el refs
              (mkRefState (Some el) (disposers st) (object_current st)
                          (callback_calls st) (cleanup_calls st)))
    as (H1 & H2 & H3 & _ & H5).
  cbn in H1, H2, H3, H5.
  split; [exact H1 |]. split; [| split; [| split; [exact H2 | exact H3]]].
  - intros id Hin. apply has_object_In in Hin. now rewrite H5, Hin.
  - intros id Hnin. rewrite H5.
    destruct (has_object refs id) eqn:E; [| reflexivity].
    apply has_object_In in E. contradiction.
Qed.

(** X19. Releasing the element ([null]) only forgets it: after any
    history of assignments, assigning [null] makes the merged ref read
    [null] and empties the disposer list, but it calls no callback ref
    again, leaves every ref object holding what it held, and runs no
    cleanup: over the whole history, no cleanup function returned by a
    callback ref is ever run. *)
Theorem useConcatRef_release_runs_no_cleanup
    (refs : list Ref) (values : list (option nat)) :
  let st := assignments refs values initial in
  let st' := set_current refs None st in
  cleanup_calls st = [] /\
  cleanup_calls st' = [] /\
  get_current st' = None /\
  disposers st' = [] /\
  object_current st' = object_current st /\
  callback_calls st' = callback_calls st.
Proof.
  intros st st'.
  destruct (assignments_only_wrappers refs values initial) as [Hw Hc];
    [intros f [] | reflexivity |].
  fold st in Hw, Hc. subst st'. cbn [set_current].
  rewrite call_wrappers by exact Hw. cbn.
  repeat split; auto.
Qed.

End ConcatRefFacts.

(** ** [setCurrentIndex]: saturation and read-back *)

(** X20. On a non-empty list [setCurrentIndex(n)] saturates: a valid
    index is stored as it is, a negative one stores 0 and one past the
    end stores the last index; doing the same call again changes no
    index. When a valid index differs from the one the viewer had
    rendered with, the viewer's next render recomputes its context and
    [useLightboxState] reports the item of the current list at that
    index. *)
Theorem setCurrentIndex_saturates
    (w : World) (v : nat) (n : Z)
    (Hitems : items_current w <> []) :
  let len := length_of (items_current w) in
  let w' := exec (setCurrentIndex v (value (Some n))) w in
  (0 <= n < len -> isOpen w' v = Some n) /\
  (n < 0 -> isOpen w' v = Some 0) /\
  (len <= n -> isOpen w' v = Some (len - 1)) /\
  (forall u, isOpen (exec (setCurrentIndex v (value (Some n))) w') u = isOpen w' u) /\
  (0 <= n < len -> context_isOpen w v = isOpen w v -> isOpen w v <> Some n ->
   useLightboxState (exec (LightboxView_render v) w') v
   = mkState (items_current w) (index_array (items_current w) n) (Some n)).
Proof.
  intros len w'. subst w'. unfold setCurrentIndex, exec.
  rewrite setIndex_eq. cbn [fst snd requested].
  pose proof (length_of_pos _ Hitems) as Hlen. fold len in Hlen.
  rewrite clamped_value. fold len.
  split; [| split; [| split; [| split]]].
  - intros Hn. cbn. rewrite update_same. f_equal. lia.
  - intros Hn. cbn. rewrite update_same. f_equal. lia.
  - intros Hn. cbn. rewrite update_same. f_equal. lia.
  - intros u. rewrite setIndex_eq. cbn [fst snd requested items_current with_isOpen].
    rewrite clamped_value. fold len. cbn. unfold update.
    destruct (Nat.eqb u v); [f_equal; lia | reflexivity].
  - intros Hn Hrendered Hchanges.
    replace (Z.max 0 (Z.min n (len - 1))) with n by lia.
    unfold LightboxView_render. cbn [isOpen with_isOpen context_isOpen].
    rewrite update_same, Hrendered.
    destruct (option_Z_eqb (Some n) (isOpen w v)) eqn:E;
      [apply option_Z_eqb_eq in E; congruence |].
    unfold useLightboxState. cbn. now rewrite !update_same.
Qed.

Lemma setCurrentIndex_saturates_witness :
  let w := mkWorld [JsObject 0; JsObject 1; JsObject 2] [0%nat]
                   (fun _ => Some 0) (fun _ => Some 1000) (fun _ => 0%Q) in
  items_current w <> [] /\
  isOpen (exec (setCurrentIndex 0 (value (Some 7))) w) 0%nat = Some 2.
Proof.
  split; [discriminate |].
  refine (proj1 (proj2 (proj2 (setCurrentIndex_saturates
            (mkWorld [JsObject 0; JsObject 1; JsObject 2] [0%nat]
                     (fun _ => Some 0) (fun _ => Some 1000) (fun _ => 0%Q))
            0%nat 7 _))) _); [discriminate | unfold length_of; cbn; lia].
Defined.
